(** * Single-key location resolution and mutation of the RethinkDB B-tree
    (src/btree/operations.hpp).

    The header declares the superblock abstraction, the key/value location
    bundle and the scoped mutation transaction; the bodies of the descent,
    of change application and of [value_txn_t] live in operations.tcc, which
    is not part of this source tree.  Those parts are modelled from the
    specification and marked as such.  The buffer cache, the node layout and
    the value sizer are external collaborators: they are modelled by the
    smallest executable stand-ins that the operations need. *)

From stdpp Require Import base gmap sets list strings.

(* ------------------------------------------------------------------ *)
(** ** Block identifiers and block locks *)

(** [block_id_t] is an unsigned machine word; [NULL_BLOCK_ID] is the
    all-ones sentinel [block_id_t(-1)] of the serializer types. *)
Definition block_id_t := N.
Definition NULL_BLOCK_ID : block_id_t := 4294967295%N.

(** [buf_lock_t]: either empty (default-constructed or released) or a held
    lock on one block. *)
Inductive buf_lock_t :=
| BufEmpty
| BufHeld (b : block_id_t).

(** [buf_lock_t::swap]: exchange the two locks. *)
Definition buf_lock_swap (a b : buf_lock_t) : buf_lock_t * buf_lock_t := (b, a).

(** [buf_lock_t::release_if_acquired]. *)
Definition buf_lock_release (a : buf_lock_t) : buf_lock_t := BufEmpty.

Definition buf_lock_is_acquired (a : buf_lock_t) : bool :=
  match a with BufEmpty => false | BufHeld _ => true end.

(* ------------------------------------------------------------------ *)
(** ** The superblock abstraction *)

Module Superblock.

(** [virtual_superblock_t]: a plain root field. *)
Record virtual_superblock_t := mk_virtual { root_block_id_ : block_id_t }.

(** [virtual_superblock_t(block_id_t root_block_id = NULL_BLOCK_ID)]. *)
Definition virtual_superblock_new (root_block_id : block_id_t) : virtual_superblock_t :=
  mk_virtual root_block_id.
Definition virtual_superblock_default : virtual_superblock_t :=
  virtual_superblock_new NULL_BLOCK_ID.

(** [void release() { }] *)
Definition virtual_release (s : virtual_superblock_t) : virtual_superblock_t := s.

(** [void swap_buf(buf_lock_t &swapee) { buf_lock_t tmp; tmp.swap(swapee); }]
    The result is the new content of the caller's slot [swapee] and the
    lock left in [tmp], which [tmp]'s destructor releases at scope exit. *)
Definition virtual_swap_buf (s : virtual_superblock_t) (swapee : buf_lock_t)
    : buf_lock_t * buf_lock_t :=
  let tmp := BufEmpty in
  let '(tmp', swapee') := buf_lock_swap tmp swapee in
  (swapee', tmp').

Definition virtual_get_root_block_id (s : virtual_superblock_t) : block_id_t :=
  root_block_id_ s.

Definition virtual_set_root_block_id (s : virtual_superblock_t)
    (new_root_block : block_id_t) : virtual_superblock_t :=
  {| root_block_id_ := new_root_block |}.

Definition virtual_get_delete_queue_block (s : virtual_superblock_t) : block_id_t :=
  NULL_BLOCK_ID.

(** Modelled from the spec: the member functions of [real_superblock_t]
    (declared in the header, defined in operations.cc).  The superblock
    holds its block lock [sb_buf_] and the in-memory copy of the on-disk
    superblock fields: "releasing it early is supported and idempotent",
    [release] gives up the lock if any is held, [swap_buf] exchanges the
    backing lock with the caller's slot, and the root and delete-queue
    identifiers are read and written in the in-memory copy. *)
Record real_superblock_t := mk_real {
  sb_buf_ : buf_lock_t;
  sb_root_block : block_id_t;
  sb_delete_queue_block : block_id_t
}.

Definition real_release (s : real_superblock_t) : real_superblock_t :=
  {| sb_buf_ := buf_lock_release (sb_buf_ s);
     sb_root_block := sb_root_block s;
     sb_delete_queue_block := sb_delete_queue_block s |}.

Definition real_swap_buf (s : real_superblock_t) (swapee : buf_lock_t)
    : real_superblock_t * buf_lock_t :=
  let '(mine, theirs) := buf_lock_swap (sb_buf_ s) swapee in
  ({| sb_buf_ := mine; sb_root_block := sb_root_block s;
      sb_delete_queue_block := sb_delete_queue_block s |}, theirs).

Definition real_get_root_block_id (s : real_superblock_t) : block_id_t :=
  sb_root_block s.

Definition real_set_root_block_id (s : real_superblock_t)
    (new_root_block : block_id_t) : real_superblock_t :=
  {| sb_buf_ := sb_buf_ s; sb_root_block := new_root_block;
     sb_delete_queue_block := sb_delete_queue_block s |}.

Definition real_get_delete_queue_block (s : real_superblock_t) : block_id_t :=
  sb_delete_queue_block s.

(** [superblock_t]: the closed sum of its two implementations; the virtual
    member functions dispatch on the variant. *)
Inductive superblock_t :=
| Real (r : real_superblock_t)
| Virtual (v : virtual_superblock_t).

Definition release (s : superblock_t) : superblock_t :=
  match s with
  | Real r => Real (real_release r)
  | Virtual v => Virtual (virtual_release v)
  end.

Definition swap_buf (s : superblock_t) (swapee : buf_lock_t) : superblock_t * buf_lock_t :=
  match s with
  | Real r => let '(r', sw) := real_swap_buf r swapee in (Real r', sw)
  | Virtual v => (Virtual v, fst (virtual_swap_buf v swapee))
  end.

Definition get_root_block_id (s : superblock_t) : block_id_t :=
  match s with
  | Real r => real_get_root_block_id r
  | Virtual v => virtual_get_root_block_id v
  end.

Definition set_root_block_id (s : superblock_t) (b : block_id_t) : superblock_t :=
  match s with
  | Real r => Real (real_set_root_block_id r b)
  | Virtual v => Virtual (virtual_set_root_block_id v b)
  end.

Definition get_delete_queue_block (s : superblock_t) : block_id_t :=
  match s with
  | Real r => real_get_delete_queue_block r
  | Virtual v => virtual_get_delete_queue_block v
  end.

(** Whether the superblock still holds a block lock. *)
Definition holds_lock (s : superblock_t) : bool :=
  match s with
  | Real r => buf_lock_is_acquired (sb_buf_ r)
  | Virtual _ => false
  end.

End Superblock.

Import Superblock.

(* ------------------------------------------------------------------ *)
(** ** Collaborators: node layout, value sizer and buffer cache *)

Section Btree.

Context {Value : Type}.

(** [btree_key_t] is a length-prefixed byte string, modelled as a string;
    the node layer orders keys lexicographically. *)
Definition btree_key_t := string.

(** A node as the node-layout collaborator sees it: a leaf holds key/value
    pairs in key order; an internal node holds (boundary key, child) pairs,
    a key going to the first child whose boundary key is not below it, and
    a last child for the keys above every boundary. *)
Inductive node :=
| Leaf (pairs : list (btree_key_t * Value))
| Internal (seps : list (btree_key_t * block_id_t)) (last : block_id_t).

(** The child pointers of a node. *)
Definition children (n : node) : list block_id_t :=
  match n with
  | Leaf _ => []
  | Internal seps last => last :: map snd seps
  end.

(** [internal_node::lookup]: the child whose range contains [k]; a key
    equal to a boundary belongs to the child on its left. *)
Fixpoint internal_lookup (seps : list (btree_key_t * block_id_t))
    (last : block_id_t) (k : btree_key_t) : block_id_t :=
  match seps with
  | [] => last
  | (bk, c) :: rest => if String.leb k bk then c else internal_lookup rest last k
  end.

(** [leaf::lookup]. *)
Fixpoint leaf_lookup (pairs : list (btree_key_t * Value)) (k : btree_key_t)
    : option Value :=
  match pairs with
  | [] => None
  | (k', v) :: rest => if String.eqb k k' then Some v else leaf_lookup rest k
  end.

(** [leaf::insert]: overwrite the pair of [k], or add one at its place in
    key order. *)
Fixpoint leaf_insert (pairs : list (btree_key_t * Value)) (k : btree_key_t)
    (v : Value) : list (btree_key_t * Value) :=
  match pairs with
  | [] => [(k, v)]
  | (k', v') :: rest =>
      match String.compare k k' with
      | Eq => (k, v) :: rest
      | Lt => (k, v) :: (k', v') :: rest
      | Gt => (k', v') :: leaf_insert rest k v
      end
  end.

(** [leaf::remove]. *)
Definition leaf_remove (pairs : list (btree_key_t * Value)) (k : btree_key_t)
    : list (btree_key_t * Value) :=
  List.filter (fun p => negb (String.eqb k p.1)) pairs.

(** The value sizer: the size a value takes in a leaf, and the block size. *)
Record value_sizer_t := mk_value_sizer {
  vs_size : Value -> nat;
  vs_block_size : nat
}.

Definition leaf_size (sizer : value_sizer_t) (pairs : list (btree_key_t * Value)) : nat :=
  fold_right (fun p acc => String.length p.1 + vs_size sizer p.2 + acc) 0 pairs.

(** [leaf::is_full]: the pairs no longer fit in a block. *)
Definition leaf_overfull (sizer : value_sizer_t) (pairs : list (btree_key_t * Value)) : bool :=
  Nat.ltb (vs_block_size sizer) (leaf_size sizer pairs).

(** [leaf::split]: the median key of a leaf of two pairs or more; the pairs
    up to it stay in the left node, the others go to the right one. *)
Definition leaf_split (pairs : list (btree_key_t * Value))
    : option (btree_key_t * list (btree_key_t * Value) * list (btree_key_t * Value)) :=
  if Nat.leb 2 (length pairs) then
    match nth_error pairs (Nat.div2 (length pairs) - 1) with
    | Some (sep, _) =>
        Some (sep, List.filter (fun p => String.leb p.1 sep) pairs,
              List.filter (fun p => negb (String.leb p.1 sep)) pairs)
    | None => None
    end
  else None.

(** Patch a child pointer: every pointer to [old] now points to [new]. *)
Definition replace_child (old new : block_id_t) (c : block_id_t) : block_id_t :=
  if decide (c = old) then new else c.

Definition internal_replace_child (old new : block_id_t) (n : node) : node :=
  match n with
  | Leaf pairs => Leaf pairs
  | Internal seps last =>
      Internal (map (fun '(bk, c) => (bk, replace_child old new c)) seps)
               (replace_child old new last)
  end.

(** [internal_node::insert] after the child [old] was split at [sep]: the
    pointer to [old] becomes the pair ([sep], [old]) followed by a pointer
    to [new], which takes the keys above [sep]. *)
Fixpoint seps_insert_split (seps : list (btree_key_t * block_id_t)) (last : block_id_t)
    (old : block_id_t) (sep : btree_key_t) (new : block_id_t)
    : list (btree_key_t * block_id_t) * block_id_t :=
  match seps with
  | [] => if decide (last = old) then ([(sep, old)], new) else ([], last)
  | (bk, c) :: rest =>
      if decide (c = old) then ((sep, old) :: (bk, new) :: rest, last)
      else let '(rest', last') := seps_insert_split rest last old sep new in
           ((bk, c) :: rest', last')
  end.

Definition internal_insert_split (old : block_id_t) (sep : btree_key_t) (new : block_id_t)
    (n : node) : node :=
  match n with
  | Leaf pairs => Leaf pairs
  | Internal seps last =>
      let '(seps', last') := seps_insert_split seps last old sep new in
      Internal seps' last'
  end.

(** [internal_node::remove] of an emptied child: its pointer goes and its
    keys fall to the next child, or to the previous one when it was the
    last child; an only child stays. *)
Fixpoint seps_remove_child (seps : list (btree_key_t * block_id_t)) (last : block_id_t)
    (old : block_id_t) : list (btree_key_t * block_id_t) * block_id_t :=
  match seps with
  | [] => ([], last)
  | (bk, c) :: rest =>
      if decide (c = old) then (rest, last)
      else match rest with
           | [] => if decide (last = old) then ([], c) else ([(bk, c)], last)
           | _ :: _ =>
               let '(rest', last') := seps_remove_child rest last old in
               ((bk, c) :: rest', last')
           end
  end.

Definition internal_remove_child (old : block_id_t) (n : node) : node :=
  match n with
  | Leaf pairs => Leaf pairs
  | Internal seps last =>
      let '(seps', last') := seps_remove_child seps last old in
      Internal seps' last'
  end.

(** The buffer cache as one transaction sees it: the current content of
    every block, and the blocks still shared with an earlier snapshot, which
    are cloned when they are mutated (the cache's versioning decides this,
    not this layer). *)
Record cache_t := mk_cache {
  cache_blocks : gmap block_id_t node;
  cache_snapshotted : gset block_id_t
}.

Definition needs_clone (c : cache_t) (b : block_id_t) : bool :=
  bool_decide (b ∈ cache_snapshotted c).

(** The identifier the cache gives to a new block (a clone, or a node
    created by a split): one neither in use nor held by a snapshot. *)
Definition clone_block_id (c : cache_t) : block_id_t :=
  fresh (dom (cache_blocks c) ∪ cache_snapshotted c).

(** Writing a block, and allocating a new one. *)
Definition write_block (c : cache_t) (b : block_id_t) (n : node) : cache_t :=
  mk_cache (<[b := n]> (cache_blocks c)) (cache_snapshotted c).

Definition alloc_block (c : cache_t) (n : node) : block_id_t * cache_t :=
  let b := clone_block_id c in (b, write_block c b n).

(* ------------------------------------------------------------------ *)
(** ** [got_superblock_t] and [keyvalue_location_t] *)

(** [got_superblock_t] takes the superblock over; the transaction it shares
    is passed to the operations as the cache it sees.  [scoped_ptr] and
    [scoped_malloc] fields are options, [None] being the null pointer. *)
Record got_superblock_t := mk_got_superblock { got_sb : option superblock_t }.

(** [keyvalue_location_t]: [txn] is the transaction the location was
    resolved in, with the blocks dirtied so far. *)
Record keyvalue_location_t := mk_keyvalue_location {
  txn : option cache_t;
  kv_sb : option superblock_t;
  last_buf : buf_lock_t;
  buf : buf_lock_t;
  there_originally_was_value : bool;
  value : option Value
}.

(** [keyvalue_location_t() : there_originally_was_value(false) { }]; the
    other members are default-constructed: null [shared_ptr] and
    [scoped_ptr], empty [buf_lock_t]s, and a null [scoped_malloc]. *)
Definition keyvalue_location_default : keyvalue_location_t :=
  {| txn := None; kv_sb := None; last_buf := BufEmpty; buf := BufEmpty;
     there_originally_was_value := false; value := None |}.

(** The header's invariant on the two value fields. *)
Definition value_invariant (l : keyvalue_location_t) : Prop :=
  (there_originally_was_value l = true -> is_Some (value l)) /\
  (there_originally_was_value l = false -> value l = None).

Definition with_location_value (loc : keyvalue_location_t) (v : option Value)
    : keyvalue_location_t :=
  {| txn := txn loc; kv_sb := kv_sb loc; last_buf := last_buf loc; buf := buf loc;
     there_originally_was_value := there_originally_was_value loc; value := v |}.

End Btree.

Arguments node : clear implicits.
Arguments cache_t : clear implicits.
Arguments value_sizer_t : clear implicits.
Arguments keyvalue_location_t : clear implicits.
(* ------------------------------------------------------------------ *)
(** ** Key/value location resolution *)

Inductive access_t := rwi_read | rwi_write.

(** A state of the descent.  [DInit r]: only the superblock is locked, its
    root pointer is [r].  [DRootLocked r]: the superblock and the root block
    are locked.  [DAt par cur]: the tree-node locks held are the parent's
    (when [par] is [Some]) and [cur]'s.  [DDone par leaf]: the descent has
    reached [leaf] and holds its lock and, when [par] is [Some], the
    parent's. *)
Inductive dstate :=
| DInit (root : block_id_t)
| DRootLocked (root : block_id_t)
| DAt (par : option block_id_t) (cur : block_id_t)
| DDone (par : option block_id_t) (leaf : block_id_t).

(** The tree-node block locks held in a state (the superblock lock apart). *)
Definition locks_held (s : dstate) : list block_id_t :=
  match s with
  | DInit _ => []
  | DRootLocked r => [r]
  | DAt None c | DDone None c => [c]
  | DAt (Some p) c | DDone (Some p) c => [p; c]
  end.

Definition superblock_locked (s : dstate) : bool :=
  match s with DInit _ | DRootLocked _ => true | _ => false end.

(** The descent has acquired its first tree-node lock. *)
Definition descent_started (s : dstate) : bool :=
  match s with DInit _ => false | _ => true end.

Section Descent.

Context {Value : Type}.

Implicit Types (st : gmap block_id_t (node Value)) (k : btree_key_t).

(** Modelled from the spec: one step of the descent shared by
    [find_keyvalue_location_for_read] and [find_keyvalue_location_for_write]
    (operations.tcc).  Lock coupling: the root is locked while the
    superblock is still held, and the superblock is released once the root
    is locked; at an internal node the child chosen for [k] is locked
    before the parent is released; at the leaf, read mode drops the parent
    while write mode keeps it as [last_buf].  A dangling block id is a fatal
    invariant violation: no step. *)
Definition step (m : access_t) st k (s : dstate) : option dstate :=
  match s with
  | DInit r => Some (DRootLocked r)
  | DRootLocked r => Some (DAt None r)
  | DAt par c =>
      match st !! c with
      | None => None
      | Some (Internal seps last) =>
          match par with
          | Some _ => Some (DAt None c)
          | None => Some (DAt (Some c) (internal_lookup seps last k))
          end
      | Some (Leaf _) =>
          Some (DDone (match m with rwi_write => par | rwi_read => None end) c)
      end
  | DDone _ _ => None
  end.

(** The step relation of the descent. *)
Inductive dstep (m : access_t) st k : dstate -> dstate -> Prop :=
| dstep_intro s s' : step m st k s = Some s' -> dstep m st k s s'.

(** [p]'s node routes [k] to [c]. *)
Definition routes_to st k (p c : block_id_t) : Prop :=
  exists seps last, st !! p = Some (Internal seps last) /\ internal_lookup seps last k = c.

(** Modelled from the spec: in write mode every lock is a write lock, and
    the cache clones a block still shared with an earlier snapshot when it
    is write-locked ("clone-on-write ... performed transparently by the
    cache when a write-locked block is shared by a prior snapshot"); the
    descent patches the clone's id into the parent it holds, or into the
    superblock's root while the superblock is still held.  These are the
    internal nodes dirtied during the descent; the leaf is cloned by change
    application, when it is mutated. *)
Definition clone_on_lock (c : cache_t Value) (sb : superblock_t) (s : dstate)
    : option (cache_t Value * superblock_t * dstate) :=
  match s with
  | DRootLocked x =>
      match cache_blocks c !! x with
      | Some (Internal seps last) =>
          if needs_clone c x then
            let '(x', c1) := alloc_block c (Internal seps last) in
            Some (c1, set_root_block_id sb x', DRootLocked x')
          else Some (c, sb, s)
      | _ => Some (c, sb, s)
      end
  | DAt (Some p) x =>
      match cache_blocks c !! x with
      | Some (Internal seps last) =>
          if needs_clone c x then
            let '(x', c1) := alloc_block c (Internal seps last) in
            match cache_blocks c1 !! p with
            | Some np => Some (write_block c1 p (internal_replace_child x x' np), sb,
                               DAt (Some p) x')
            | None => None
            end
          else Some (c, sb, s)
      | _ => Some (c, sb, s)
      end
  | _ => Some (c, sb, s)
  end.

(** One step of the descent on the transaction's blocks and superblock. *)
Definition lock_step (m : access_t) (c : cache_t Value) (sb : superblock_t) k (s : dstate)
    : option (cache_t Value * superblock_t * dstate) :=
  match step m (cache_blocks c) k s with
  | None => None
  | Some s' =>
      match m with
      | rwi_read => Some (c, sb, s')
      | rwi_write => clone_on_lock c sb s'
      end
  end.

(** Running the descent, with fuel bounding the number of steps. *)
Fixpoint descend (m : access_t) (c : cache_t Value) (sb : superblock_t) k (fuel : nat)
    (s : dstate) : option (cache_t Value * superblock_t * dstate) :=
  match fuel with
  | O => None
  | S f =>
      match s with
      | DDone _ _ => Some (c, sb, s)
      | _ => match lock_step m c sb k s with
             | Some (c', sb', s') => descend m c' sb' k f s'
             | None => None
             end
      end
  end.

(** Enough fuel for any descent along distinct blocks: two steps per
    internal node, and four more. *)
Definition descent_fuel st : nat := 4 + 2 * size st.

Definition opt_buf (o : option block_id_t) : buf_lock_t :=
  match o with Some p => BufHeld p | None => BufEmpty end.

(** Modelled from the spec: [find_keyvalue_location_for_read] and
    [find_keyvalue_location_for_write] (operations.tcc).  The location takes
    the superblock over from [got_superblock]; the descent runs from the
    superblock's root (the superblock lock is given up on the way); at the
    leaf the key is looked up, the value copied out and
    [there_originally_was_value] recorded.  The location keeps the
    transaction, with the blocks the descent dirtied. *)
Definition find_keyvalue_location (m : access_t) (c : cache_t Value)
    (got : got_superblock_t) k (out : keyvalue_location_t Value)
    : option (keyvalue_location_t Value) :=
  match got_sb got with
  | None => None
  | Some sb =>
      match descend m c sb k (descent_fuel (cache_blocks c)) (DInit (get_root_block_id sb)) with
      | Some (c1, sb1, DDone par leaf) =>
          match cache_blocks c1 !! leaf with
          | Some (Leaf pairs) =>
              let v := leaf_lookup pairs k in
              Some {| txn := Some c1;
                      kv_sb := Some (release sb1);
                      last_buf := opt_buf par;
                      buf := BufHeld leaf;
                      there_originally_was_value :=
                        match v with Some _ => true | None => false end;
                      value := v |}
          | _ => None
          end
      | _ => None
      end
  end.

Definition find_keyvalue_location_for_read (c : cache_t Value)
    (got : got_superblock_t) k (out : keyvalue_location_t Value) :=
  find_keyvalue_location rwi_read c got k out.

Definition find_keyvalue_location_for_write (c : cache_t Value)
    (got : got_superblock_t) k (out : keyvalue_location_t Value) :=
  find_keyvalue_location rwi_write c got k out.

(** The leaf's pairs after the change: the final value written for [k], or
    [k] removed when the value is absent and was present. *)
Definition edit_leaf (pairs : list (btree_key_t * Value)) (loc : keyvalue_location_t Value) k
    : list (btree_key_t * Value) :=
  match value loc with
  | Some v => leaf_insert pairs k v
  | None => if there_originally_was_value loc then leaf_remove pairs k else pairs
  end.

(** Copy-on-write of the leaf [b] when the cache requires it: the clone
    gets a fresh id, which is patched into the parent held in [last_buf], or
    into the superblock's root when the leaf is the root.  The parent was
    locked for writing by the descent, which already replaced it by a clone
    if it was shared ([clone_on_lock]), so it is written in place. *)
Definition cow_leaf (c : cache_t Value) (sb : option superblock_t) (lb : buf_lock_t)
    (b : block_id_t) : option (cache_t Value * option superblock_t * block_id_t) :=
  if needs_clone c b then
    match cache_blocks c !! b with
    | Some n =>
        let '(b', c1) := alloc_block c n in
        match lb with
        | BufHeld p =>
            match cache_blocks c1 !! p with
            | Some np => Some (write_block c1 p (internal_replace_child b b' np), sb, b')
            | None => None
            end
        | BufEmpty => Some (c1, option_map (fun s => set_root_block_id s b') sb, b')
        end
    | None => None
    end
  else Some (c, sb, b).

(** Rebalancing of the edited leaf [b], which the node layer decides: an
    overfull leaf is split and the new right node's pointer is inserted in
    the parent, or, when the leaf is the root, a new root is made over the
    two halves; an emptied leaf below a parent is removed from it.  The
    result names the leaf that now holds [k]. *)
Definition rebalance_leaf (sizer : value_sizer_t Value) (c : cache_t Value)
    (sb : option superblock_t) (lb : buf_lock_t) (b : block_id_t) k
    : option (cache_t Value * option superblock_t * block_id_t) :=
  match cache_blocks c !! b with
  | Some (Leaf pairs) =>
      if leaf_overfull sizer pairs then
        match leaf_split pairs with
        | Some (sep, lpairs, rpairs) =>
            let c1 := write_block c b (Leaf lpairs) in
            let '(rb, c2) := alloc_block c1 (Leaf rpairs) in
            let kb := if String.leb k sep then b else rb in
            match lb with
            | BufHeld p =>
                match cache_blocks c2 !! p with
                | Some np => Some (write_block c2 p (internal_insert_split b sep rb np), sb, kb)
                | None => None
                end
            | BufEmpty =>
                let '(root, c3) := alloc_block c2 (Internal [(sep, b)] rb) in
                Some (c3, option_map (fun s => set_root_block_id s root) sb, kb)
            end
        | None => Some (c, sb, b)
        end
      else
        match pairs, lb with
        | [], BufHeld p =>
            match cache_blocks c !! p with
            | Some np => Some (write_block c p (internal_remove_child b np), sb, b)
            | None => None
            end
        | _, _ => Some (c, sb, b)
        end
  | _ => None
  end.

(** Modelled from the spec: [apply_keyvalue_change] (operations.tcc), in
    the location's transaction.  The leaf is cloned if the cache requires
    it, the change is written into the leaf (or its clone), the leaf is
    rebalanced, and the location is updated: [buf] is the leaf holding the
    key, [kv_sb] the superblock with its possibly new root.  The timestamp
    only stamps recency. *)
Definition apply_keyvalue_change (sizer : value_sizer_t Value)
    (loc : keyvalue_location_t Value) k : option (keyvalue_location_t Value) :=
  match txn loc, buf loc with
  | Some c, BufHeld b =>
      match cache_blocks c !! b with
      | Some (Leaf pairs) =>
          match cow_leaf c (kv_sb loc) (last_buf loc) b with
          | Some (c1, sb1, b1) =>
              let c2 := write_block c1 b1 (Leaf (edit_leaf pairs loc k)) in
              match rebalance_leaf sizer c2 sb1 (last_buf loc) b1 k with
              | Some (c3, sb2, b2) =>
                  Some {| txn := Some c3; kv_sb := sb2; last_buf := last_buf loc;
                          buf := BufHeld b2;
                          there_originally_was_value := there_originally_was_value loc;
                          value := value loc |}
              | None => None
              end
          | None => None
          end
      | _ => None
      end
  | _, _ => None
  end.

End Descent.

(* ------------------------------------------------------------------ *)
(** ** The scoped mutation transaction [value_txn_t] *)

Section ValueTxn.

Context {Value : Type}.

(** [value_txn_t]: the exposed value, the borrowed key and location, and
    the sizer (the timestamp carries no state the model needs). *)
Record value_txn_t := mk_value_txn {
  txn_value : option Value;
  txn_key : btree_key_t;
  txn_kv_location : keyvalue_location_t Value;
  txn_sizer : value_sizer_t Value
}.

(** The world a write operation acts on: the location the transaction
    points to (with its transaction), and the calls made so far to change
    application, each with the value it was given. *)
Record world := mk_world {
  w_loc : keyvalue_location_t Value;
  w_applied : list (option Value)
}.

(** A call of [apply_keyvalue_change] on the location of the world. *)
Definition apply_call (sizer : value_sizer_t Value) (w : world) (k : btree_key_t) : world :=
  let loc := w_loc w in
  match apply_keyvalue_change sizer loc k with
  | Some loc' => mk_world loc' (w_applied w ++ [value loc])
  | None => mk_world loc (w_applied w ++ [value loc])
  end.

(** Modelled from the spec: the constructor (operations.tcc) takes the
    location's value copy over into the exposed [value]
    ([value.swap(kv_location->value)]). *)
Definition value_txn_construct (sizer : value_sizer_t Value) (k : btree_key_t) (w : world)
    : value_txn_t * world :=
  let loc := w_loc w in
  (mk_value_txn (value loc) k loc sizer,
   mk_world (with_location_value loc None) (w_applied w)).

(** Modelled from the spec: the destructor (operations.tcc) hands the final
    value back to the location ([kv_location->value.swap(value)]) and
    applies the change. *)
Definition value_txn_destroy (t : value_txn_t) (w : world) : world :=
  let w1 := mk_world (with_location_value (w_loc w) (txn_value t)) (w_applied w) in
  apply_call (txn_sizer t) w1 (txn_key t).

(** The caller's code in the scope of a transaction: edits of the exposed
    value (mutate, replace or clear: any function of the current value),
    sequencing, branches, an early [return], a thrown error, and a call of
    a nested function, whose own [return] ends only that call while its
    error propagates. *)
Inductive stmt :=
| SSkip
| SEdit (f : option Value -> option Value)
| SSeq (s1 s2 : stmt)
| SIf (b : bool) (s1 s2 : stmt)
| SReturn
| SThrow
| SCall (s : stmt).

Inductive outcome := ONormal | OReturn | OThrow.

Fixpoint exec (s : stmt) (v : option Value) : outcome * option Value :=
  match s with
  | SSkip => (ONormal, v)
  | SEdit f => (ONormal, f v)
  | SSeq s1 s2 =>
      let '(o, v1) := exec s1 v in
      match o with ONormal => exec s2 v1 | _ => (o, v1) end
  | SIf b s1 s2 => if b then exec s1 v else exec s2 v
  | SReturn => (OReturn, v)
  | SThrow => (OThrow, v)
  | SCall s1 =>
      let '(o, v1) := exec s1 v in
      match o with OThrow => (OThrow, v1) | _ => (ONormal, v1) end
  end.

(** A block scope declaring a [value_txn_t] on the world's location and
    running [body]: whichever way [body] leaves the scope (falling off its
    end, [return], or an error unwinding through it), the C++ scope rule
    runs the destructor once, and the outcome then propagates. *)
Definition value_txn_scope (sizer : value_sizer_t Value) (k : btree_key_t) (body : stmt)
    (w : world) : outcome * world :=
  let '(t, w1) := value_txn_construct sizer k w in
  let '(o, v) := exec body (txn_value t) in
  (o, value_txn_destroy (mk_value_txn v (txn_key t) (txn_kv_location t) (txn_sizer t)) w1).

End ValueTxn.

Arguments value_txn_t : clear implicits.
Arguments world : clear implicits.
Arguments stmt : clear implicits.

(* ------------------------------------------------------------------ *)
(** ** Shape of the tree *)

Section TreeShape.

Context {Value : Type}.
Implicit Types (st : gmap block_id_t (node Value)) (k : btree_key_t).

(** The child pointers of a block, none for a missing one. *)
Definition kids (o : option (node Value)) : list block_id_t :=
  match o with Some n => children n | None => [] end.

Definition child_of st (x y : block_id_t) : Prop := In y (kids (st !! x)).

(** The blocks reachable from the root [r] along child pointers. *)
Inductive reachable (st : gmap block_id_t (node Value)) (r : block_id_t)
    : block_id_t -> Prop :=
| reach_root : reachable st r r
| reach_child x y : reachable st r x -> child_of st x y -> reachable st r y.

(** The blocks reachable from [r] form a tree: each is present, has one
    reachable parent (none for [r]), and points to distinct children. *)
Record well_formed (st : gmap block_id_t (node Value)) (r : block_id_t) : Prop := {
  wf_present : forall x, reachable st r x -> is_Some (st !! x);
  wf_parent : forall x y z, reachable st r x -> reachable st r y ->
                child_of st x z -> child_of st y z -> x = y;
  wf_root : forall x, reachable st r x -> ~ child_of st x r;
  wf_nodup : forall x, reachable st r x -> NoDup (kids (st !! x))
}.

(** The path of [k] from [x]: the internal nodes [ns] passed through, in
    order, ending at [b]. *)
Fixpoint walk st k (ns : list block_id_t) (x b : block_id_t) : Prop :=
  match ns with
  | [] => x = b
  | y :: rest =>
      x = y /\ exists seps last, st !! y = Some (Internal seps last) /\
                                 walk st k rest (internal_lookup seps last k) b
  end.

Definition is_internal st (x : block_id_t) : Prop :=
  exists seps last, st !! x = Some (Internal seps last).

(** The invariant of a write-mode descent: the tree stays well formed, the
    descent is on the path of [k] from the current root, every internal
    node it has locked is no longer shared with a snapshot, and in write
    mode the parent it keeps is the last node of the path. *)
Definition winv (snap : gset block_id_t) k (c : cache_t Value) (sb : superblock_t)
    (s : dstate) : Prop :=
  let st := cache_blocks c in
  let r := get_root_block_id sb in
  well_formed st r /\ cache_snapshotted c = snap /\
  match s with
  | DInit x => x = r
  | DRootLocked x => x = r /\ (is_internal st x -> x ∉ snap)
  | DAt par x =>
      exists ns, walk st k ns r x /\ Forall (fun y => y ∉ snap) ns /\
        (is_internal st x -> x ∉ snap) /\
        match par with
        | Some p => last ns = Some p
        | None => ns = [] \/ is_internal st x
        end
  | DDone par x =>
      exists ns, walk st k ns r x /\ Forall (fun y => y ∉ snap) ns /\ par = last ns
  end.

(** The step relation of the descent on the transaction's blocks. *)
Definition ldstep (m : access_t) k (x y : cache_t Value * superblock_t * dstate) : Prop :=
  lock_step m x.1.1 x.1.2 k x.2 = Some y.

End TreeShape.

(* ================================================================== *)
(** * Lemmas *)

(** ** The node layer *)

Section NodeFacts.

Context {Value : Type}.
Implicit Types (k : btree_key_t).

Lemma string_compare_refl (s : string) : String.compare s s = Eq.
Proof.
  pose proof (String.compare_antisym s s) as H.
  destruct (String.compare s s); simpl in H; congruence.
Qed.

Lemma leaf_lookup_insert (pairs : list (btree_key_t * Value)) k v :
  leaf_lookup (leaf_insert pairs k v) k = Some v.
Proof.
  induction pairs as [|[k' v'] rest IH]; simpl.
  - rewrite String.eqb_refl. reflexivity.
  - destruct (String.compare k k') eqn:E; simpl; try (rewrite String.eqb_refl; reflexivity).
    assert (String.eqb k k' = false) as ->.
    { apply String.eqb_neq. intros ->. rewrite string_compare_refl in E. discriminate. }
    exact IH.
Qed.

Lemma leaf_insert_nonempty (pairs : list (btree_key_t * Value)) k v :
  leaf_insert pairs k v <> [].
Proof.
  destruct pairs as [|[k' v'] rest]; simpl; [discriminate|].
  destruct (String.compare k k'); discriminate.
Qed.

Lemma leaf_lookup_filter (P : btree_key_t * Value -> bool) (pairs : list (btree_key_t * Value)) k :
  (forall v, P (k, v) = true) ->
  leaf_lookup (List.filter P pairs) k = leaf_lookup pairs k.
Proof.
  intros HP. induction pairs as [|[k' v'] rest IH]; simpl; [reflexivity|].
  destruct (String.eqb k k') eqn:E.
  - apply String.eqb_eq in E. subst k'. rewrite HP. simpl.
    rewrite String.eqb_refl. reflexivity.
  - destruct (P (k', v')); simpl; [rewrite E|]; exact IH.
Qed.

(** After a split, the half that the separator sends [k] to has [k]'s
    value. *)
Lemma leaf_split_lookup (pairs : list (btree_key_t * Value)) k sep lp rp :
  leaf_split pairs = Some (sep, lp, rp) ->
  leaf_lookup (if String.leb k sep then lp else rp) k = leaf_lookup pairs k.
Proof.
  unfold leaf_split. destruct (Nat.leb 2 (length pairs)); [|discriminate].
  destruct (nth_error _ _) as [[s v0]|]; [|discriminate].
  intros H. injection H as <- <- <-.
  destruct (String.leb k s) eqn:E; apply leaf_lookup_filter; intros v; simpl;
    rewrite E; reflexivity.
Qed.

Lemma replace_child_same (b x : block_id_t) : replace_child b b x = x.
Proof. unfold replace_child. case_decide; congruence. Qed.

Lemma replace_child_eq (b b' : block_id_t) : replace_child b b' b = b'.
Proof. unfold replace_child. case_decide; congruence. Qed.

Lemma replace_child_ne (b b' x : block_id_t) : x <> b -> replace_child b b' x = x.
Proof. unfold replace_child. case_decide; congruence. Qed.

Lemma map_replace_child_notin (b b' : block_id_t) (l : list block_id_t) :
  ~ In b l -> map (replace_child b b') l = l.
Proof.
  induction l as [|x l IH]; simpl; intros Hn; [reflexivity|].
  rewrite replace_child_ne by tauto. rewrite IH by tauto. reflexivity.
Qed.

Lemma internal_lookup_replace (b b' : block_id_t) seps last k :
  internal_lookup (map (fun '(bk, c) => (bk, replace_child b b' c)) seps)
                  (replace_child b b' last) k =
  replace_child b b' (internal_lookup seps last k).
Proof.
  induction seps as [|[bk c] rest IH]; simpl; [reflexivity|].
  destruct (String.leb k bk); [reflexivity | exact IH].
Qed.

Lemma internal_lookup_child seps last k :
  In (internal_lookup seps last k) (last :: map snd seps).
Proof.
  induction seps as [|[bk c] rest IH]; simpl; [left; reflexivity|].
  destruct (String.leb k bk); simpl in *; tauto.
Qed.

Lemma children_replace (b b' : block_id_t) (n : node Value) :
  children (internal_replace_child b b' n) = map (replace_child b b') (children n).
Proof.
  destruct n as [pairs|seps last]; simpl; [reflexivity|].
  f_equal. rewrite !map_map. apply map_ext. intros [bk c]. reflexivity.
Qed.

(** Inserting the split of the only pointer to [old]: [k] goes to [old]
    up to the separator and to [new] above it. *)
Lemma insert_split_lookup seps last (old new : block_id_t) sep k :
  NoDup (last :: map snd seps) ->
  internal_lookup seps last k = old ->
  internal_lookup (seps_insert_split seps last old sep new).1
                  (seps_insert_split seps last old sep new).2 k =
  if String.leb k sep then old else new.
Proof.
  induction seps as [|[bk c] rest IH]; simpl; intros Hnd Hl.
  - rewrite decide_True by exact Hl. simpl. reflexivity.
  - destruct (decide (c = old)) as [->|Hne].
    + simpl. destruct (String.leb k sep); [reflexivity|].
      destruct (String.leb k bk) eqn:E; [reflexivity|].
      exfalso. pose proof (internal_lookup_child rest last k) as Hin. rewrite Hl in Hin.
      apply NoDup_cons in Hnd as [Hn1 Hnd1]. apply NoDup_cons in Hnd1 as [Hn2 _].
      simpl in Hin. destruct Hin as [Heq|Hin].
      * apply Hn1. rewrite Heq. left.
      * apply Hn2. apply list_elem_of_In. exact Hin.
    + destruct (String.leb k bk) eqn:E; [congruence|].
      destruct (seps_insert_split rest last old sep new) as [rest' last'] eqn:Es. simpl.
      rewrite E.
      assert (Hnd' : NoDup (last :: map snd rest)).
      { apply NoDup_cons in Hnd as [Hn1 Hnd1]. apply NoDup_cons in Hnd1 as [_ Hnd2].
        apply NoDup_cons. split; [|exact Hnd2]. intros Hin. apply Hn1. right. exact Hin. }
      specialize (IH Hnd' Hl). simpl in IH. exact IH.
Qed.

Lemma insert_split_children (old new : block_id_t) sep (n : node Value) y :
  In y (children (internal_insert_split old sep new n)) -> In y (children n) \/ y = new.
Proof.
  destruct n as [pairs|seps last]; simpl; [tauto|].
  assert (H : forall y, In y ((seps_insert_split seps last old sep new).2 ::
                              map snd (seps_insert_split seps last old sep new).1) ->
                        In y (last :: map snd seps) \/ y = new).
  { clear y. induction seps as [|[bk c] rest IH]; simpl; intros y Hy.
    - case_decide; simpl in Hy; intuition congruence.
    - case_decide; simpl in Hy.
      + subst. intuition congruence.
      + destruct (seps_insert_split rest last old sep new) as [rest' last'] eqn:Es.
        simpl in *. specialize (IH y). intuition congruence. }
  destruct (seps_insert_split seps last old sep new) as [s' l'] eqn:Es.
  simpl in H. intros Hy. apply H. exact Hy.
Qed.

Lemma remove_children (old : block_id_t) (n : node Value) y :
  In y (children (internal_remove_child old n)) -> In y (children n).
Proof.
  destruct n as [pairs|seps last]; simpl; [tauto|].
  assert (H : forall y, In y ((seps_remove_child seps last old).2 ::
                              map snd (seps_remove_child seps last old).1) ->
                        In y (last :: map snd seps)).
  { clear y. induction seps as [|[bk c] rest IH]; intros y Hy; [exact Hy|].
    cbn [seps_remove_child] in Hy. case_decide.
    - simpl in *. tauto.
    - destruct rest as [|p rest2].
      + case_decide; simpl in *; intuition congruence.
      + destruct (seps_remove_child (p :: rest2) last old) as [r' l'] eqn:Es.
        simpl in *. specialize (IH y). tauto. }
  destruct (seps_remove_child seps last old) as [s' l'] eqn:Es.
  simpl in H. intros Hy. apply H. exact Hy.
Qed.

End NodeFacts.

(** ** Reachability and the shape of the tree *)

Section ShapeFacts.

Context {Value : Type}.
Implicit Types (st : gmap block_id_t (node Value)) (k : btree_key_t).

Lemma NoDup_map_inj_in {A B} (f : A -> B) (l : list A) :
  (forall u v, In u l -> In v l -> f u = f v -> u = v) -> NoDup l -> NoDup (map f l).
Proof.
  induction l as [|x l IH]; simpl; intros Hinj Hnd; [constructor|].
  apply NoDup_cons in Hnd as [Hx Hnd]. apply NoDup_cons. split.
  - intros Hin. apply list_elem_of_In, in_map_iff in Hin as [y [Hy Hyl]].
    assert (y = x) as -> by (apply Hinj; auto).
    apply Hx, list_elem_of_In. exact Hyl.
  - apply IH; auto.
Qed.

Lemma reachable_front st (r r1 y : block_id_t) :
  child_of st r r1 -> reachable st r1 y -> reachable st r y.
Proof.
  intros Hc Hr. induction Hr as [|x y Hx IH Hxy].
  - eapply reach_child; [apply reach_root | exact Hc].
  - eapply reach_child; eauto.
Qed.

Lemma reachable_inv st (r y : block_id_t) :
  reachable st r y -> y = r \/ exists z, reachable st r z /\ child_of st z y.
Proof. intros H; destruct H; eauto. Qed.

Lemma wf_no_self st (r x : block_id_t) :
  well_formed st r -> reachable st r x -> ~ child_of st x x.
Proof.
  intros Hwf Hx. induction Hx as [|z x Hz IH Hzx]; intros Hxx.
  - exact (wf_root _ _ Hwf r (reach_root _ _) Hxx).
  - assert (z = x) as ->.
    { apply (wf_parent _ _ Hwf z x x); auto. eapply reach_child; eauto. }
    exact (IH Hzx).
Qed.

Lemma wf_not_below st (r r1 : block_id_t) :
  well_formed st r -> child_of st r r1 -> ~ reachable st r1 r.
Proof.
  intros Hwf Hc Hr. destruct (reachable_inv _ _ _ Hr) as [Heq|[z [Hz Hzr]]].
  - rewrite <- Heq in Hc. exact (wf_root _ _ Hwf r (reach_root _ _) Hc).
  - exact (wf_root _ _ Hwf z (reachable_front _ _ _ _ Hc Hz) Hzr).
Qed.

Lemma wf_child st (r r1 : block_id_t) :
  well_formed st r -> child_of st r r1 -> well_formed st r1.
Proof.
  intros Hwf Hc. assert (Hf : forall y, reachable st r1 y -> reachable st r y) by (intros; eapply reachable_front; eauto).
  pose proof (wf_not_below st r r1 Hwf Hc) as Hnb.
  destruct Hwf as [Hp Hpar Hroot Hnd]. split.
  - intros x Hx. apply Hp, Hf; auto.
  - intros x y z Hx Hy. apply Hpar; apply Hf; auto.
  - intros x Hx Hxr1. assert (x = r) as ->.
    { apply (Hpar x r r1); [apply Hf; exact Hx | apply reach_root | exact Hxr1 | exact Hc]. }
    exact (Hnb Hx).
  - intros x Hx. apply Hnd, Hf; auto.
Qed.

Lemma walk_reachable st k ns (r b : block_id_t) :
  walk st k ns r b -> forall y, In y (ns ++ [b]) -> reachable st r y.
Proof.
  revert r. induction ns as [|x ns IH]; simpl; intros r Hw y Hy.
  - subst. destruct Hy as [<-|[]]. apply reach_root.
  - destruct Hw as [<- (seps & last & Hx & Hw)]. destruct Hy as [<-|Hy]; [apply reach_root|].
    apply (reachable_front st r (internal_lookup seps last k)).
    + unfold child_of. rewrite Hx. simpl. apply internal_lookup_child.
    + exact (IH _ Hw y Hy).
Qed.

Lemma walk_internal st k ns (x b : block_id_t) :
  walk st k ns x b -> forall y, In y ns -> is_internal st y.
Proof.
  revert x. induction ns as [|z ns IH]; simpl; intros x Hw y Hy; [destruct Hy|].
  destruct Hw as [<- (seps & last & Hx & Hw)]. destruct Hy as [<-|Hy].
  - exists seps, last. exact Hx.
  - exact (IH _ Hw y Hy).
Qed.

Lemma walk_nodup st k ns (r b : block_id_t) :
  well_formed st r -> walk st k ns r b -> NoDup (ns ++ [b]).
Proof.
  revert r. induction ns as [|x ns IH]; simpl; intros r Hwf Hw.
  - apply NoDup_singleton.
  - destruct Hw as [<- (seps & last & Hx & Hw)].
    assert (Hc : child_of st r (internal_lookup seps last k)).
    { unfold child_of. rewrite Hx. apply internal_lookup_child. }
    apply NoDup_cons. split.
    + intros Hin. apply list_elem_of_In in Hin.
      apply (wf_not_below st r _ Hwf Hc). exact (walk_reachable st k ns _ b Hw r Hin).
    + exact (IH _ (wf_child st r _ Hwf Hc) Hw).
Qed.

Lemma walk_app st k ns (p x b : block_id_t) :
  walk st k (ns ++ [p]) x b <-> walk st k ns x p /\ routes_to st k p b.
Proof.
  revert x. induction ns as [|y ns IH]; simpl; intros x.
  - unfold routes_to. split.
    + intros [-> (seps & last & Hp & Hb)]. split; [reflexivity|]. eauto.
    + intros [-> (seps & last & Hp & Hb)]. split; [reflexivity|]. eauto.
  - split.
    + intros [-> (seps & last & Hy & Hw)]. apply IH in Hw as [Hw Hr].
      split; [|exact Hr]. split; [reflexivity|]. eauto.
    + intros [[-> (seps & last & Hy & Hw)] Hr]. split; [reflexivity|].
      exists seps, last. split; [exact Hy|]. apply IH. auto.
Qed.

Lemma walk_frame st st' k ns (x b : block_id_t) :
  walk st k ns x b -> (forall y, In y ns -> st' !! y = st !! y) -> walk st' k ns x b.
Proof.
  revert x. induction ns as [|y ns IH]; simpl; intros x Hw Hs; [exact Hw|].
  destruct Hw as [-> (seps & last & Hy & Hw)]. split; [reflexivity|].
  exists seps, last. split; [rewrite Hs by auto; exact Hy|]. apply IH; auto.
Qed.

Lemma nodup_length_size st (l : list block_id_t) :
  NoDup l -> (forall y, In y l -> is_Some (st !! y)) -> length l <= size st.
Proof.
  intros Hnd Hin. rewrite <- (size_list_to_set (C := gset block_id_t) l Hnd).
  rewrite <- size_dom. apply subseteq_size.
  intros y Hy. apply elem_of_list_to_set, list_elem_of_In in Hy.
  apply elem_of_dom. auto.
Qed.

(** Renaming one reachable block [x] to a new id [x'] (a clone that takes
    its place), with every pointer to [x] redirected: the blocks reachable
    from the (renamed) root are the renamed ones, and the tree stays well
    formed. *)
Lemma rename_wf st st' (r x x' : block_id_t) :
  well_formed st r -> st !! x' = None ->
  (forall a, reachable st r a -> a <> x ->
     is_Some (st' !! a) /\ kids (st' !! a) = map (replace_child x x') (kids (st !! a))) ->
  is_Some (st' !! x') ->
  kids (st' !! x') = map (replace_child x x') (kids (st !! x)) ->
  (forall y, reachable st' (replace_child x x' r) y <->
             exists y0, reachable st r y0 /\ y = replace_child x x' y0) /\
  well_formed st' (replace_child x x' r).
Proof.
  intros Hwf Hx' H1 H2s H2.
  set (ren := replace_child x x').
  assert (Hkids : forall a, reachable st r a ->
                  kids (st' !! ren a) = map ren (kids (st !! a))).
  { intros a Ha. unfold ren, replace_child. case_decide; [subst; exact H2 | apply H1; auto]. }
  assert (Hsome : forall a, reachable st r a -> is_Some (st' !! ren a)).
  { intros a Ha. unfold ren, replace_child. case_decide; [exact H2s | apply H1; auto]. }
  assert (Hne : forall a, reachable st r a -> a <> x').
  { intros a Ha ->. destruct (wf_present _ _ Hwf x' Ha) as [n Hn]. congruence. }
  assert (Hinj : forall a b, reachable st r a -> reachable st r b -> ren a = ren b -> a = b).
  { intros a b Ha Hb. pose proof (Hne a Ha). pose proof (Hne b Hb).
    unfold ren, replace_child. repeat case_decide; congruence. }
  assert (Hiff : forall y, reachable st' (ren r) y <->
                           exists y0, reachable st r y0 /\ y = ren y0).
  { intros y. split.
    - intros Hy. induction Hy as [|a z Ha IH Haz].
      + exists r. split; [apply reach_root | reflexivity].
      + destruct IH as [a0 [Ha0 ->]]. unfold child_of in Haz. rewrite (Hkids a0 Ha0) in Haz.
        apply in_map_iff in Haz as [z0 [<- Hz0]]. exists z0. split; [|reflexivity].
        eapply reach_child; [exact Ha0 | exact Hz0].
    - intros [y0 [Hy0 ->]]. induction Hy0 as [|a z Ha IH Haz]; [apply reach_root|].
      eapply reach_child; [exact IH|]. unfold child_of. rewrite (Hkids a Ha).
      apply in_map. exact Haz. }
  split; [exact Hiff|].
  split.
  - intros y Hy. apply Hiff in Hy as [y0 [Hy0 ->]]. apply Hsome; auto.
  - intros a b z Ha Hb Haz Hbz.
    apply Hiff in Ha as [a0 [Ha0 ->]]. apply Hiff in Hb as [b0 [Hb0 ->]].
    unfold child_of in Haz, Hbz. rewrite Hkids in Haz, Hbz by assumption.
    apply in_map_iff in Haz as [z1 [Hz1 Hz1i]]. apply in_map_iff in Hbz as [z2 [Hz2 Hz2i]].
    assert (z1 = z2) as <-.
    { apply Hinj; [exact (reach_child _ _ _ _ Ha0 Hz1i) | exact (reach_child _ _ _ _ Hb0 Hz2i) | congruence]. }
    f_equal. apply (wf_parent _ _ Hwf a0 b0 z1); auto.
  - intros a Ha Har. apply Hiff in Ha as [a0 [Ha0 ->]].
    unfold child_of in Har. rewrite Hkids in Har by assumption.
    apply in_map_iff in Har as [z1 [Hz1 Hz1i]].
    apply Hinj in Hz1; [| exact (reach_child _ _ _ _ Ha0 Hz1i) | apply reach_root].
    subst z1. exact (wf_root _ _ Hwf a0 Ha0 Hz1i).
  - intros a Ha. apply Hiff in Ha as [a0 [Ha0 ->]]. rewrite Hkids by assumption.
    apply NoDup_map_inj_in; [|exact (wf_nodup _ _ Hwf a0 Ha0)].
    intros u v Hu Hv. apply Hinj; [exact (reach_child _ _ _ _ Ha0 Hu) | exact (reach_child _ _ _ _ Ha0 Hv)].
Qed.

(** Changing blocks without changing any child pointer keeps the tree. *)
Lemma same_kids_wf st st' (r : block_id_t) :
  (forall a, is_Some (st' !! a) <-> is_Some (st !! a)) ->
  (forall a, kids (st' !! a) = kids (st !! a)) ->
  well_formed st r ->
  (forall y, reachable st' r y <-> reachable st r y) /\ well_formed st' r.
Proof.
  intros Hs Hk Hwf.
  assert (Hc : forall a z, child_of st' a z <-> child_of st a z).
  { intros a z. unfold child_of. rewrite Hk. reflexivity. }
  assert (Hiff : forall y, reachable st' r y <-> reachable st r y).
  { intros y. split; intros Hy; induction Hy as [|a z Ha IH Haz];
      try apply reach_root; eapply reach_child; eauto; apply Hc; exact Haz. }
  split; [exact Hiff|]. destruct Hwf as [Hp Hpar Hroot Hnd]. split.
  - intros x Hx. apply Hs, Hp, Hiff, Hx.
  - intros x y z Hx Hy Hxz Hyz. apply Hpar with z; try apply Hiff; try apply Hc; assumption.
  - intros x Hx Hxr. apply (Hroot x); [apply Hiff; exact Hx | apply Hc; exact Hxr].
  - intros x Hx. rewrite Hk. apply Hnd, Hiff, Hx.
Qed.

(** Adding new blocks [New] and pointers to them: what is reachable is new
    or was reachable. *)
Lemma reachable_extend st st' (r r' : block_id_t) (New : list block_id_t) :
  (r' = r \/ In r' New) ->
  (forall a z, reachable st r a -> child_of st' a z -> child_of st a z \/ In z New) ->
  (forall a z, In a New -> child_of st' a z -> In z New \/ reachable st r z) ->
  forall y, reachable st' r' y -> In y New \/ reachable st r y.
Proof.
  intros Hr H1 H2 y Hy. induction Hy as [|a z Ha IH Haz].
  - destruct Hr as [->|Hr]; [right; apply reach_root | left; exact Hr].
  - destruct IH as [IH|IH].
    + apply (H2 a z IH Haz).
    + destruct (H1 a z IH Haz) as [Hc|Hc]; [right; eapply reach_child; eauto | left; exact Hc].
Qed.

(** Well-formedness from a closed list of blocks, for concrete trees. *)
Lemma well_formed_closed st (r : block_id_t) (S : list block_id_t) :
  In r S ->
  (forall a z, In a S -> child_of st a z -> In z S) ->
  (forall a, In a S -> is_Some (st !! a)) ->
  (forall a b z, In a S -> In b S -> child_of st a z -> child_of st b z -> a = b) ->
  (forall a, In a S -> ~ child_of st a r) ->
  (forall a, In a S -> NoDup (kids (st !! a))) ->
  well_formed st r.
Proof.
  intros Hr Hcl Hp Hpar Hroot Hnd.
  assert (HS : forall y, reachable st r y -> In y S).
  { intros y Hy. induction Hy as [|a z Ha IH Haz]; [exact Hr | exact (Hcl a z IH Haz)]. }
  split; intros; eauto.
Qed.

End ShapeFacts.

(** ** The descent in write mode keeps the tree *)

Section DescentFacts.

Context {Value : Type}.
Implicit Types (st : gmap block_id_t (node Value)) (k : btree_key_t) (c : cache_t Value).

Lemma get_root_release (s : superblock_t) : get_root_block_id (release s) = get_root_block_id s.
Proof. destruct s; reflexivity. Qed.

Lemma get_root_set (s : superblock_t) (b : block_id_t) :
  get_root_block_id (set_root_block_id s b) = b.
Proof. destruct s; reflexivity. Qed.

Lemma clone_fresh c :
  cache_blocks c !! clone_block_id c = None /\ clone_block_id c ∉ cache_snapshotted c.
Proof.
  unfold clone_block_id.
  pose proof (is_fresh (dom (cache_blocks c) ∪ cache_snapshotted c)) as H.
  split; [apply not_elem_of_dom; set_solver | set_solver].
Qed.

Lemma present_ne_clone c (x : block_id_t) :
  is_Some (cache_blocks c !! x) -> x <> clone_block_id c.
Proof. intros [n Hn] ->. rewrite (proj1 (clone_fresh c)) in Hn. discriminate. Qed.

Lemma walk_present st k ns (x b : block_id_t) :
  walk st k ns x b -> forall y, In y ns -> is_Some (st !! y).
Proof.
  intros Hw y Hy. destruct (walk_internal st k ns x b Hw y Hy) as (s & l & H).
  rewrite H. eauto.
Qed.

Lemma write_same_kids_wf st (r b : block_id_t) (n : node Value) :
  is_Some (st !! b) -> children n = kids (st !! b) -> well_formed st r ->
  (forall y, reachable (<[b:=n]> st) r y <-> reachable st r y) /\
  well_formed (<[b:=n]> st) r.
Proof.
  intros Hb Hk Hwf. apply same_kids_wf; [| |exact Hwf].
  - intros a. destruct (decide (a = b)) as [->|Hne].
    + rewrite lookup_insert_eq. split; [intros _; exact Hb | eauto].
    + rewrite lookup_insert_ne by congruence. reflexivity.
  - intros a. destruct (decide (a = b)) as [->|Hne].
    + rewrite lookup_insert_eq. exact Hk.
    + rewrite lookup_insert_ne by congruence. reflexivity.
Qed.

(** A copy of the root under a new id becomes the root. *)
Lemma clone_root_wf st (r r' : block_id_t) (nr nr' : node Value) :
  well_formed st r -> st !! r = Some nr -> st !! r' = None -> children nr' = children nr ->
  (forall z, reachable (<[r' := nr']> st) r' z <->
             exists z0, reachable st r z0 /\ z = replace_child r r' z0) /\
  well_formed (<[r' := nr']> st) r'.
Proof.
  intros Hwf Hr Hr' Hk.
  assert (H1 : forall a, reachable st r a -> a <> r ->
     is_Some (<[r' := nr']> st !! a) /\
     kids (<[r' := nr']> st !! a) = map (replace_child r r') (kids (st !! a))).
  { intros a Ha Hne.
    assert (a <> r') by (intros ->; destruct (wf_present _ _ Hwf r' Ha); congruence).
    rewrite lookup_insert_ne by congruence. split; [exact (wf_present _ _ Hwf a Ha)|].
    symmetry. apply map_replace_child_notin. exact (wf_root _ _ Hwf a Ha). }
  assert (H2s : is_Some (<[r' := nr']> st !! r')) by (rewrite lookup_insert_eq; eauto).
  assert (H2 : kids (<[r' := nr']> st !! r') = map (replace_child r r') (kids (st !! r))).
  { rewrite lookup_insert_eq.
    rewrite map_replace_child_notin by exact (wf_root _ _ Hwf r (reach_root _ _)).
    rewrite Hr. simpl. exact Hk. }
  destruct (rename_wf st _ r r r' Hwf Hr' H1 H2s H2) as [A B].
  rewrite replace_child_eq in A, B. split; assumption.
Qed.

(** A copy of a child under a new id, patched into its parent, takes the
    child's place. *)
Lemma clone_child_wf st (r p y y' : block_id_t) (np ny ny' : node Value) :
  well_formed st r -> reachable st r p -> st !! p = Some np -> In y (children np) ->
  st !! y = Some ny -> st !! y' = None -> children ny' = children ny ->
  (forall z, reachable (<[p := internal_replace_child y y' np]> (<[y' := ny']> st)) r z <->
             exists z0, reachable st r z0 /\ z = replace_child y y' z0) /\
  well_formed (<[p := internal_replace_child y y' np]> (<[y' := ny']> st)) r.
Proof.
  intros Hwf Hp Hnp Hy Hny Hy' Hk.
  assert (Hcy : child_of st p y) by (unfold child_of; rewrite Hnp; exact Hy).
  assert (Hry : reachable st r y) by (eapply reach_child; eauto).
  assert (Hpy' : p <> y') by (intros ->; destruct (wf_present _ _ Hwf y' Hp); congruence).
  assert (Hyr : r <> y) by (intros <-; exact (wf_root _ _ Hwf p Hp Hcy)).
  assert (Hpy : p <> y) by (intros <-; exact (wf_no_self st r p Hwf Hp Hcy)).
  set (st' := <[p := internal_replace_child y y' np]> (<[y' := ny']> st)).
  assert (H1 : forall a, reachable st r a -> a <> y ->
     is_Some (st' !! a) /\ kids (st' !! a) = map (replace_child y y') (kids (st !! a))).
  { intros a Ha Hne. unfold st'. destruct (decide (a = p)) as [->|Hap].
    - rewrite lookup_insert_eq, Hnp. simpl. split; [eauto|]. apply children_replace.
    - assert (a <> y') by (intros ->; destruct (wf_present _ _ Hwf y' Ha); congruence).
      rewrite lookup_insert_ne, lookup_insert_ne by congruence.
      split; [exact (wf_present _ _ Hwf a Ha)|].
      symmetry. apply map_replace_child_notin. intros Hin.
      apply Hap. exact (wf_parent _ _ Hwf a p y Ha Hp Hin Hcy). }
  assert (H2s : is_Some (st' !! y')).
  { unfold st'. rewrite lookup_insert_ne by congruence. rewrite lookup_insert_eq. eauto. }
  assert (H2 : kids (st' !! y') = map (replace_child y y') (kids (st !! y))).
  { unfold st'. rewrite lookup_insert_ne by congruence. rewrite lookup_insert_eq.
    rewrite map_replace_child_notin by exact (wf_no_self st r y Hwf Hry).
    rewrite Hny. simpl. exact Hk. }
  destruct (rename_wf st st' r y y' Hwf Hy' H1 H2s H2) as [A B].
  rewrite (replace_child_ne y y' r) in A, B by congruence. split; assumption.
Qed.

Lemma needs_clone_false c (x : block_id_t) :
  needs_clone c x = false -> x ∉ cache_snapshotted c.
Proof. unfold needs_clone. intros H. apply bool_decide_eq_false in H. exact H. Qed.

Lemma needs_clone_true c (x : block_id_t) :
  needs_clone c x = true -> x ∈ cache_snapshotted c.
Proof. unfold needs_clone. intros H. apply bool_decide_eq_true in H. exact H. Qed.

End DescentFacts.

Section WriteDescent.

Context {Value : Type}.
Implicit Types (st : gmap block_id_t (node Value)) (k : btree_key_t) (c : cache_t Value).

(** One write-mode step keeps the invariant of the descent. *)
Lemma winv_step snap k c sb s c' sb' s' :
  winv snap k c sb s -> lock_step rwi_write c sb k s = Some (c', sb', s') ->
  winv snap k c' sb' s'.
Proof.
  unfold winv. intros (Hwf & Hsnap & Hs) Hl.
  destruct s as [x|x|par x|par x]; unfold lock_step, step, clone_on_lock in Hl.
  - (* the root is locked, and copied when shared *)
    subst x.
    destruct (cache_blocks c !! get_root_block_id sb) as [[pairs|seps lst]|] eqn:Hx.
    + injection Hl as <- <- <-. split; [assumption|]; split; [assumption|].
      split; [reflexivity|]. intros (s0 & l0 & H). congruence.
    + destruct (needs_clone c (get_root_block_id sb)) eqn:Hn.
      * injection Hl as <- <- <-. cbn [cache_blocks cache_snapshotted write_block].
        rewrite get_root_set. destruct (clone_fresh c) as [Hf1 Hf2].
        destruct (clone_root_wf (cache_blocks c) _ (clone_block_id c) _ (Internal seps lst)
                    Hwf Hx Hf1 eq_refl) as [_ Hwf'].
        split; [exact Hwf'|]; split; [exact Hsnap|]. split; [reflexivity|]. intros _. rewrite <- Hsnap. exact Hf2.
      * injection Hl as <- <- <-. split; [assumption|]; split; [assumption|].
        split; [reflexivity|]. intros _. rewrite <- Hsnap. apply needs_clone_false. exact Hn.
    + injection Hl as <- <- <-. split; [assumption|]; split; [assumption|].
      split; [reflexivity|]. intros (s0 & l0 & H). congruence.
  - (* the superblock is released *)
    injection Hl as <- <- <-. destruct Hs as [Hxr Hint]. subst x.
    split; [assumption|]; split; [assumption|]. exists []. simpl. auto.
  - (* at a node *)
    destruct Hs as (ns & Hw & Hun & Hint & Hpar).
    destruct (cache_blocks c !! x) as [[pairs|seps lst]|] eqn:Hx; [| |discriminate].
    + (* a leaf: the descent is done *)
      injection Hl as <- <- <-. split; [assumption|]; split; [assumption|].
      exists ns. split; [exact Hw|]. split; [exact Hun|].
      destruct par as [p|]; [symmetry; exact Hpar|].
      destruct Hpar as [->|(s0 & l0 & H)]; [reflexivity | congruence].
    + destruct par as [p|].
      * (* the parent is released *)
        injection Hl as <- <- <-. split; [assumption|]; split; [assumption|].
        exists ns. split; [assumption|]; split; [assumption|]; split; [assumption|]. right. exists seps, lst. exact Hx.
      * (* the child for [k] is locked, and copied when shared *)
        set (y := internal_lookup seps lst k) in *.
        assert (Hxr : reachable (cache_blocks c) (get_root_block_id sb) x)
          by (apply (walk_reachable _ k ns _ x Hw); apply in_or_app; right; left; reflexivity).
        assert (Hxs : x ∉ snap) by (apply Hint; exists seps, lst; exact Hx).
        assert (Hroute : routes_to (cache_blocks c) k x y) by (exists seps, lst; auto).
        assert (Hw' : walk (cache_blocks c) k (ns ++ [x]) (get_root_block_id sb) y)
          by (apply walk_app; auto).
        destruct (cache_blocks c !! y) as [[pairs2|seps2 lst2]|] eqn:Hy.
        -- injection Hl as <- <- <-. split; [assumption|]; split; [assumption|].
           exists (ns ++ [x]). split; [exact Hw'|]. split; [apply Forall_app; auto|].
           split; [intros (s0 & l0 & H); congruence | apply last_snoc].
        -- destruct (needs_clone c y) eqn:Hn.
           ++ cbn [alloc_block cache_blocks write_block] in Hl.
              destruct (clone_fresh c) as [Hf1 Hf2].
              set (y' := clone_block_id c) in *.
              assert (Hxy' : x <> y') by (apply present_ne_clone; rewrite Hx; eauto).
              rewrite lookup_insert_ne in Hl by congruence. rewrite Hx in Hl.
              injection Hl as <- <- <-.
              cbn [cache_blocks cache_snapshotted write_block].
              destruct (clone_child_wf (cache_blocks c) _ x y y' (Internal seps lst)
                          (Internal seps2 lst2) (Internal seps2 lst2)
                          Hwf Hxr Hx (internal_lookup_child seps lst k) Hy Hf1 eq_refl)
                as [_ Hwf'].
              split; [exact Hwf'|]; split; [exact Hsnap|].
              exists (ns ++ [x]). split; [|split; [apply Forall_app; auto|]].
              ** apply walk_app. split.
                 --- apply (walk_frame (cache_blocks c)); [exact Hw|].
                     intros z Hz.
                     pose proof (walk_nodup _ k _ _ _ Hwf Hw) as Hnd.
                     assert (z <> x).
                     { intros ->. apply NoDup_app in Hnd as (_ & Hd & _).
                       apply (Hd x); [apply list_elem_of_In; exact Hz | left]. }
                     assert (z <> y') by (apply present_ne_clone;
                                          exact (walk_present _ k _ _ _ Hw z Hz)).
                     rewrite lookup_insert_ne, lookup_insert_ne by congruence. reflexivity.
                 --- exists (map (fun '(bk, c0) => (bk, replace_child y y' c0)) seps),
                       (replace_child y y' lst).
                     rewrite lookup_insert_eq. split; [reflexivity|].
                     rewrite internal_lookup_replace. apply replace_child_eq.
              ** split; [intros _; rewrite <- Hsnap; exact Hf2 | apply last_snoc].
           ++ injection Hl as <- <- <-. split; [assumption|]; split; [assumption|].
              exists (ns ++ [x]). split; [exact Hw'|]. split; [apply Forall_app; auto|].
              split; [intros _; rewrite <- Hsnap; apply needs_clone_false; exact Hn
                     | apply last_snoc].
        -- injection Hl as <- <- <-. split; [assumption|]; split; [assumption|].
           exists (ns ++ [x]). split; [exact Hw'|]. split; [apply Forall_app; auto|].
           split; [intros (s0 & l0 & H); congruence | apply last_snoc].
  - discriminate.
Qed.

End WriteDescent.

Section DescentRuns.

Context {Value : Type}.
Implicit Types (st : gmap block_id_t (node Value)) (k : btree_key_t) (c : cache_t Value).

(** A write-mode descent ends at a leaf with the invariant. *)
Lemma descend_write_inv snap k fuel c sb s c' sb' s' :
  winv snap k c sb s -> descend rwi_write c sb k fuel s = Some (c', sb', s') ->
  winv snap k c' sb' s' /\ exists par leaf, s' = DDone par leaf.
Proof.
  revert c sb s. induction fuel as [|f IH]; intros c sb s Hinv Hd; [discriminate|].
  cbn [descend] in Hd. destruct s as [x|x|par x|par x];
    try (destruct (lock_step rwi_write c sb k _) as [[[c1 sb1] s1]|] eqn:Hl; [|discriminate];
         exact (IH _ _ _ (winv_step _ _ _ _ _ _ _ _ Hinv Hl) Hd)).
  injection Hd as <- <- <-. split; [exact Hinv | eauto].
Qed.

Lemma internal_replace_child_leaf (a b : block_id_t) (n : node Value) pairs :
  internal_replace_child a b n = Leaf pairs -> n = Leaf pairs.
Proof. destruct n; simpl; congruence. Qed.

(** The descent writes no leaf: a leaf after a step was there before. *)
Lemma lock_step_leaf m c sb k s c' sb' s' (b : block_id_t) pairs :
  lock_step m c sb k s = Some (c', sb', s') -> cache_blocks c' !! b = Some (Leaf pairs) ->
  cache_blocks c !! b = Some (Leaf pairs).
Proof.
  intros Hl Hb. unfold lock_step in Hl.
  destruct (step m (cache_blocks c) k s) as [s1|]; [|discriminate].
  destruct m; [injection Hl as <- <- <-; exact Hb|].
  unfold clone_on_lock in Hl.
  destruct s1 as [x|x|[p|] x|par x]; try (injection Hl as <- <- <-; exact Hb).
  - destruct (cache_blocks c !! x) as [[ps|seps lst]|] eqn:Hx;
      try (injection Hl as <- <- <-; exact Hb).
    destruct (needs_clone c x); [|injection Hl as <- <- <-; exact Hb].
    cbn [alloc_block] in Hl. injection Hl as <- <- <-. cbn [cache_blocks write_block] in Hb.
    destruct (decide (b = clone_block_id c)) as [->|Hne];
      [rewrite lookup_insert_eq in Hb; discriminate|].
    rewrite lookup_insert_ne in Hb by congruence. exact Hb.
  - destruct (cache_blocks c !! x) as [[ps|seps lst]|] eqn:Hx;
      try (injection Hl as <- <- <-; exact Hb).
    destruct (needs_clone c x); [|injection Hl as <- <- <-; exact Hb].
    cbn [alloc_block cache_blocks write_block] in Hl.
    destruct (<[_ := _]> (cache_blocks c) !! p) as [np|] eqn:Hp; [|discriminate].
    injection Hl as <- <- <-. cbn [cache_blocks write_block] in Hb.
    destruct (decide (b = p)) as [->|Hbp].
    + rewrite lookup_insert_eq in Hb. injection Hb as Hb.
      apply internal_replace_child_leaf in Hb. subst np.
      destruct (decide (p = clone_block_id c)) as [->|Hpc];
        [rewrite lookup_insert_eq in Hp; discriminate|].
      rewrite lookup_insert_ne in Hp by congruence. exact Hp.
    + rewrite lookup_insert_ne in Hb by congruence.
      destruct (decide (b = clone_block_id c)) as [->|Hne];
        [rewrite lookup_insert_eq in Hb; discriminate|].
      rewrite lookup_insert_ne in Hb by congruence. exact Hb.
Qed.

Lemma descend_leaf m fuel c sb k s c' sb' s' (b : block_id_t) pairs :
  descend m c sb k fuel s = Some (c', sb', s') -> cache_blocks c' !! b = Some (Leaf pairs) ->
  cache_blocks c !! b = Some (Leaf pairs).
Proof.
  revert c sb s. induction fuel as [|f IH]; intros c sb s Hd Hb; [discriminate|].
  cbn [descend] in Hd. destruct s as [x|x|par x|par x];
    try (destruct (lock_step m c sb k _) as [[[c1 sb1] s1]|] eqn:Hl; [|discriminate];
         exact (lock_step_leaf _ _ _ _ _ _ _ _ _ _ Hl (IH _ _ _ Hd Hb))).
  injection Hd as <- <- <-. exact Hb.
Qed.

(** A read-mode descent follows the path of [k] to its leaf, without
    changing anything. *)
Lemma descend_read_walk c sb k ns (x b : block_id_t) pairs par fuel :
  walk (cache_blocks c) k ns x b -> cache_blocks c !! b = Some (Leaf pairs) ->
  2 * length ns + 2 <= fuel ->
  descend rwi_read c sb k fuel (DAt par x) = Some (c, sb, DDone None b).
Proof.
  revert x par fuel. induction ns as [|y ns IH]; intros x par fuel Hw Hb Hf.
  - simpl in Hw. subst x. destruct fuel as [|[|f]]; [lia|lia|].
    cbn [descend]. unfold lock_step, step. rewrite Hb. reflexivity.
  - destruct Hw as [-> (seps & lst & Hy & Hw)]. simpl in Hf.
    destruct fuel as [|f]; [lia|]. cbn [descend]. unfold lock_step at 1, step at 1.
    rewrite Hy. destruct par as [p|].
    + destruct f as [|f]; [lia|]. cbn [descend]. unfold lock_step at 1, step at 1.
      rewrite Hy. apply IH; [exact Hw | exact Hb | lia].
    + apply IH; [exact Hw | exact Hb | lia].
Qed.

Lemma descend_step m c sb k f s c1 sb1 s1 :
  (forall par leaf, s <> DDone par leaf) -> lock_step m c sb k s = Some (c1, sb1, s1) ->
  descend m c sb k (S f) s = descend m c1 sb1 k f s1.
Proof.
  intros Hs Hl. cbn [descend].
  destruct s as [x|x|par x|par x]; try rewrite Hl; try reflexivity.
  exfalso. exact (Hs par x eq_refl).
Qed.

(** Read resolution along a path of distinct blocks finds the key's leaf. *)
Lemma find_read_walk c (sb : superblock_t) k ns (b : block_id_t) pairs out :
  walk (cache_blocks c) k ns (get_root_block_id sb) b ->
  cache_blocks c !! b = Some (Leaf pairs) ->
  NoDup (ns ++ [b]) -> (forall y, In y (ns ++ [b]) -> is_Some (cache_blocks c !! y)) ->
  find_keyvalue_location_for_read c (mk_got_superblock (Some sb)) k out =
  Some {| txn := Some c; kv_sb := Some (release sb); last_buf := BufEmpty;
          buf := BufHeld b;
          there_originally_was_value :=
            match leaf_lookup pairs k with Some _ => true | None => false end;
          value := leaf_lookup pairs k |}.
Proof.
  intros Hw Hb Hnd Hp.
  pose proof (nodup_length_size (cache_blocks c) _ Hnd Hp) as Hlen.
  rewrite length_app in Hlen. simpl in Hlen.
  unfold find_keyvalue_location_for_read, find_keyvalue_location. cbn [got_sb].
  change (descent_fuel (cache_blocks c)) with (S (S (2 + 2 * size (cache_blocks c)))).
  rewrite (descend_step rwi_read c sb k _ (DInit _) c sb (DRootLocked (get_root_block_id sb)));
    [| intros ? ? ?; discriminate | reflexivity].
  rewrite (descend_step rwi_read c sb k _ (DRootLocked _) c sb (DAt None (get_root_block_id sb)));
    [| intros ? ? ?; discriminate | reflexivity].
  rewrite (descend_read_walk c sb k ns _ b pairs None); [| exact Hw | exact Hb | lia].
  rewrite Hb. reflexivity.
Qed.

(** The tree-node locks and the coupling of parent and child. *)
Definition coupled st k (s : dstate) : Prop :=
  match s with
  | DAt (Some p) c | DDone (Some p) c => routes_to st k p c
  | _ => True
  end.

Lemma coupled_step m st k s s' :
  coupled st k s -> dstep m st k s s' -> coupled st k s'.
Proof.
  intros Hc Hd. destruct Hd as [s0 s1 Hs]. unfold step in Hs.
  destruct s0 as [r|r|par c|par c]; try (injection Hs as <-; exact I); [|discriminate].
  destruct (st !! c) as [[pairs|seps last]|] eqn:Hn; try discriminate.
  - injection Hs as <-. destruct m, par; simpl in *; auto.
  - destruct par; injection Hs as <-; simpl; [exact I|].
    exists seps, last. auto.
Qed.

Lemma coupled_reachable m st k r s :
  rtc (dstep m st k) (DInit r) s -> coupled st k s.
Proof.
  revert s. apply rtc_ind_r; [exact I|].
  intros y z _ Hyz IH. eapply coupled_step; eauto.
Qed.

Lemma coupled_lock_step m c sb k s c' sb' s' :
  coupled (cache_blocks c) k s -> lock_step m c sb k s = Some (c', sb', s') ->
  coupled (cache_blocks c') k s'.
Proof.
  intros Hc Hl. unfold lock_step in Hl.
  destruct (step m (cache_blocks c) k s) as [s1|] eqn:Hs; [|discriminate].
  pose proof (coupled_step m _ k s s1 Hc (dstep_intro _ _ _ _ _ Hs)) as Hc1.
  destruct m; [injection Hl as <- <- <-; exact Hc1|].
  unfold clone_on_lock in Hl.
  destruct s1 as [x|x|[p|] x|par x]; try (injection Hl as <- <- <-; exact Hc1).
  - destruct (cache_blocks c !! x) as [[ps|seps lst]|];
      try (injection Hl as <- <- <-; exact Hc1).
    destruct (needs_clone c x); [|injection Hl as <- <- <-; exact Hc1].
    injection Hl as <- <- <-. exact I.
  - destruct (cache_blocks c !! x) as [[ps|seps lst]|];
      try (injection Hl as <- <- <-; exact Hc1).
    destruct (needs_clone c x); [|injection Hl as <- <- <-; exact Hc1].
    destruct Hc1 as (seps0 & lst0 & Hp & Hpx).
    assert (Hpc : p <> clone_block_id c) by (apply present_ne_clone; rewrite Hp; eauto).
    cbn [alloc_block cache_blocks write_block] in Hl.
    rewrite lookup_insert_ne, Hp in Hl by congruence.
    injection Hl as <- <- <-. cbn [coupled cache_blocks write_block].
    exists (map (fun '(bk, c0) => (bk, replace_child x (clone_block_id c) c0)) seps0),
      (replace_child x (clone_block_id c) lst0).
    rewrite lookup_insert_eq. split; [reflexivity|].
    rewrite internal_lookup_replace, Hpx. apply replace_child_eq.
Qed.

Lemma coupled_ldstep m k c sb c' sb' s' :
  rtc (ldstep m k) (c, sb, DInit (get_root_block_id sb)) (c', sb', s') ->
  coupled (cache_blocks c') k s'.
Proof.
  intros Hr.
  assert (H : forall y, rtc (ldstep m k) (c, sb, DInit (get_root_block_id sb)) y ->
                        coupled (cache_blocks y.1.1) k y.2).
  { apply rtc_ind_r; [exact I|].
    intros [[c1 sb1] s1] [[c2 sb2] s2] _ Hyz IH.
    exact (coupled_lock_step m c1 sb1 k s1 c2 sb2 s2 IH Hyz). }
  exact (H _ Hr).
Qed.

Lemma clone_on_lock_at c sb (p x : block_id_t) c' sb' s' :
  clone_on_lock c sb (DAt (Some p) x) = Some (c', sb', s') -> exists x', s' = DAt (Some p) x'.
Proof.
  unfold clone_on_lock.
  destruct (cache_blocks c !! x) as [[ps|seps lst]|]; try (intros H; injection H as _ _ <-; eauto).
  destruct (needs_clone c x); [|intros H; injection H as _ _ <-; eauto].
  cbn [alloc_block]. destruct (cache_blocks _ !! p); [|discriminate].
  intros H. injection H as _ _ <-. eauto.
Qed.

(** A step of the descent on the transaction releases a node's lock only
    while holding the lock of the node's child for [k]. *)
Lemma lock_step_coupling m c sb k s c' sb' s' :
  coupled (cache_blocks c) k s -> lock_step m c sb k s = Some (c', sb', s') ->
  forall x, x ∈ locks_held s -> x ∉ locks_held s' ->
    exists y, y ∈ locks_held s /\ y ∈ locks_held s' /\ routes_to (cache_blocks c') k x y.
Proof.
  intros Hc Hl x Hx Hx'. unfold lock_step, step in Hl.
  destruct s as [r|r|par b|par b]; [ | | | discriminate].
  - simpl in Hx. set_solver.
  - destruct m; cbn [clone_on_lock] in Hl; injection Hl as <- <- <-; simpl in *; set_solver.
  - destruct (cache_blocks c !! b) as [[ps|seps lst]|] eqn:Hb; [| |discriminate].
    + destruct m; cbn [clone_on_lock] in Hl; injection Hl as <- <- <-;
        destruct par as [p|]; simpl in *; set_solver.
    + destruct par as [p|].
      * destruct m; cbn [clone_on_lock] in Hl; injection Hl as <- <- <-; simpl in *;
          (assert (x = p) as -> by set_solver);
          (exists b; split; [set_solver|]; split; [set_solver | exact Hc]).
      * destruct m.
        -- injection Hl as <- <- <-. simpl in *. set_solver.
        -- apply clone_on_lock_at in Hl as [x' ->]. simpl in *. set_solver.
Qed.

End DescentRuns.

(** ** Change application keeps the tree *)

Section ApplyFacts.

Context {Value : Type}.
Implicit Types (st : gmap block_id_t (node Value)) (k : btree_key_t) (c : cache_t Value).

(** What write resolution hands to change application. *)
Lemma find_write_spec c got k out loc (sb : superblock_t) :
  got_sb got = Some sb -> well_formed (cache_blocks c) (get_root_block_id sb) ->
  find_keyvalue_location_for_write c got k out = Some loc ->
  exists c1 sb1 par leaf pairs ns,
    txn loc = Some c1 /\ kv_sb loc = Some (release sb1) /\ last_buf loc = opt_buf par /\
    buf loc = BufHeld leaf /\ cache_blocks c1 !! leaf = Some (Leaf pairs) /\
    value loc = leaf_lookup pairs k /\
    well_formed (cache_blocks c1) (get_root_block_id sb1) /\
    walk (cache_blocks c1) k ns (get_root_block_id sb1) leaf /\
    Forall (fun y => y ∉ cache_snapshotted c) ns /\ par = last ns /\
    cache_snapshotted c1 = cache_snapshotted c.
Proof.
  intros Hgot Hwf Hf.
  unfold find_keyvalue_location_for_write, find_keyvalue_location in Hf. rewrite Hgot in Hf.
  destruct (descend rwi_write c sb k _ _) as [[[c1 sb1] s1]|] eqn:Hd; [|discriminate].
  assert (Hinv : winv (cache_snapshotted c) k c sb (DInit (get_root_block_id sb)))
    by (split; [exact Hwf|]; split; reflexivity).
  destruct (descend_write_inv _ _ _ _ _ _ _ _ _ Hinv Hd) as [Hinv1 (par & leaf & ->)].
  destruct (cache_blocks c1 !! leaf) as [[pairs|]|] eqn:Hl; try discriminate.
  injection Hf as <-. destruct Hinv1 as (Hwf1 & Hsnap1 & ns & Hw & Hun & Hpar).
  exists c1, sb1, par, leaf, pairs, ns. cbn.
  do 4 (split; [reflexivity|]). split; [exact Hl|]. split; [reflexivity|].
  split; [exact Hwf1|]. split; [exact Hw|]. split; [exact Hun|]. split; [exact Hpar|].
  exact Hsnap1.
Qed.

Lemma replace_child_not_old (x x' z0 : block_id_t) :
  x <> x' -> x = replace_child x x' z0 -> x = z0 /\ False \/ False.
Proof. unfold replace_child. case_decide; intros; [left|right]; congruence. Qed.

Lemma renamed_unreachable st st' (r r' x x' : block_id_t) :
  x <> x' ->
  (forall z, reachable st' r' z <-> exists z0, reachable st r z0 /\ z = replace_child x x' z0) ->
  ~ reachable st' r' x.
Proof.
  intros Hne Hiff Hr. apply Hiff in Hr as (z0 & _ & Hz).
  unfold replace_child in Hz. case_decide; congruence.
Qed.

Lemma insert_present st (b y : block_id_t) (n : node Value) :
  is_Some (st !! y) -> is_Some (<[b := n]> st !! y).
Proof. intros H. apply lookup_insert_is_Some'. right. exact H. Qed.

(** Copy-on-write of the leaf and the write of the new pairs: the tree
    stays well formed, the path of [k] now ends at the written leaf, and a
    cloned leaf is no longer reachable. *)
Lemma cow_write_spec c1 (sb : superblock_t) k ns par (leaf : block_id_t) pairs e c1' sb1' b1 :
  well_formed (cache_blocks c1) (get_root_block_id sb) ->
  walk (cache_blocks c1) k ns (get_root_block_id sb) leaf -> par = last ns ->
  cache_blocks c1 !! leaf = Some (Leaf pairs) ->
  cow_leaf c1 (Some sb) (opt_buf par) leaf = Some (c1', sb1', b1) ->
  exists sb2, sb1' = Some sb2 /\
    well_formed (<[b1 := Leaf e]> (cache_blocks c1')) (get_root_block_id sb2) /\
    walk (<[b1 := Leaf e]> (cache_blocks c1')) k ns (get_root_block_id sb2) b1 /\
    cache_snapshotted c1' = cache_snapshotted c1 /\
    (forall y, is_Some (cache_blocks c1 !! y) -> is_Some (cache_blocks c1' !! y)) /\
    (needs_clone c1 leaf = true -> b1 = clone_block_id c1 /\
       ~ reachable (<[b1 := Leaf e]> (cache_blocks c1')) (get_root_block_id sb2) leaf) /\
    (needs_clone c1 leaf = false -> b1 = leaf).
Proof.
  intros Hwf Hw Hpar Hleaf H. unfold cow_leaf in H. rewrite Hleaf in H.
  pose proof (walk_nodup _ k _ _ _ Hwf Hw) as Hnd.
  destruct (needs_clone c1 leaf) eqn:Hn.
  - cbn [alloc_block] in H. destruct (clone_fresh c1) as [Hf1 _].
    set (b' := clone_block_id c1) in *.
    assert (Hlb : leaf <> b') by (apply present_ne_clone; rewrite Hleaf; eauto).
    destruct par as [p|]; cbn [opt_buf] in H.
    + cbn [cache_blocks write_block] in H.
      destruct (<[b' := Leaf pairs]> (cache_blocks c1) !! p) as [np|] eqn:Hp; [|discriminate].
      injection H as <- <- <-. exists sb. split; [reflexivity|].
      symmetry in Hpar. apply last_Some in Hpar as [ns0 ->].
      apply walk_app in Hw as [Hw0 (seps & lst & Hpn & Hlk)].
      assert (Hpb : p <> b') by (apply present_ne_clone; rewrite Hpn; eauto).
      rewrite lookup_insert_ne in Hp by congruence. rewrite Hpn in Hp. injection Hp as <-.
      assert (Hpr : reachable (cache_blocks c1) (get_root_block_id sb) p).
      { apply (walk_reachable _ k ns0 _ p Hw0). apply in_or_app. right. left. reflexivity. }
      assert (Hin : In leaf (children (Internal (Value:=Value) seps lst))).
      { rewrite <- Hlk. apply internal_lookup_child. }
      destruct (clone_child_wf (cache_blocks c1) _ p leaf b' _ (Leaf pairs) (Leaf pairs)
                  Hwf Hpr Hpn Hin Hleaf Hf1 eq_refl) as [Hiff Hwf1].
      set (st1 := <[p := internal_replace_child leaf b' (Internal seps lst)]>
                    (<[b' := Leaf pairs]> (cache_blocks c1))) in *.
      assert (Hb'1 : st1 !! b' = Some (Leaf pairs)).
      { unfold st1. rewrite lookup_insert_ne by congruence. apply lookup_insert_eq. }
      destruct (write_same_kids_wf st1 (get_root_block_id sb) b' (Leaf e)) as [Hiff2 Hwf2];
        [rewrite Hb'1; eauto | rewrite Hb'1; reflexivity | exact Hwf1|].
      cbn [cache_blocks write_block]. fold st1.
      split; [exact Hwf2|]. split; [|split; [reflexivity|]; split; [|split]].
      * apply walk_app. split.
        -- apply (walk_frame (cache_blocks c1)); [exact Hw0|]. intros z Hz.
           assert (z <> p).
           { intros ->. rewrite <- app_assoc in Hnd. apply NoDup_app in Hnd as (_ & Hd & _).
             apply (Hd p); [apply list_elem_of_In; exact Hz | left]. }
           assert (z <> b') by (apply present_ne_clone; exact (walk_present _ k _ _ _ Hw0 z Hz)).
           unfold st1. rewrite !lookup_insert_ne by congruence. reflexivity.
        -- exists (map (fun '(bk, c0) => (bk, replace_child leaf b' c0)) seps),
             (replace_child leaf b' lst).
           unfold st1. rewrite lookup_insert_ne by congruence. rewrite lookup_insert_eq.
           split; [reflexivity|]. rewrite internal_lookup_replace, Hlk. apply replace_child_eq.
      * intros y Hy. unfold st1. apply insert_present, insert_present, Hy.
      * intros _. split; [reflexivity|]. intros Hr. apply Hiff2 in Hr.
        exact (renamed_unreachable _ _ _ _ leaf b' Hlb Hiff Hr).
      * intros; discriminate.
    + injection H as <- <- <-. exists (set_root_block_id sb b'). split; [reflexivity|].
      symmetry in Hpar. apply last_None in Hpar as ->. simpl in Hw. subst leaf.
      rewrite get_root_set.
      destruct (clone_root_wf (cache_blocks c1) _ b' (Leaf pairs) (Leaf pairs)
                  Hwf Hleaf Hf1 eq_refl) as [Hiff Hwf1].
      destruct (write_same_kids_wf (<[b' := Leaf pairs]> (cache_blocks c1)) b' b' (Leaf e))
        as [Hiff2 Hwf2]; [rewrite lookup_insert_eq; eauto | rewrite lookup_insert_eq; reflexivity
                          | exact Hwf1 |].
      cbn [cache_blocks write_block].
      split; [exact Hwf2|]. split; [reflexivity|]. split; [reflexivity|].
      split; [intros y Hy; apply insert_present, Hy|]. split.
      * intros _. split; [reflexivity|]. intros Hr. apply Hiff2 in Hr.
        exact (renamed_unreachable _ _ _ _ _ b' Hlb Hiff Hr).
      * intros; discriminate.
  - injection H as <- <- <-. exists sb. split; [reflexivity|].
    destruct (write_same_kids_wf (cache_blocks c1) (get_root_block_id sb) leaf (Leaf e)) as [_ Hwf2];
      [rewrite Hleaf; eauto | rewrite Hleaf; reflexivity | exact Hwf|].
    split; [exact Hwf2|].
    split; [|split; [reflexivity|]; split; [auto|]; split; [intros; discriminate | auto]].
    apply (walk_frame (cache_blocks c1)); [exact Hw|]. intros z Hz.
    assert (z <> leaf).
    { intros ->. apply NoDup_app in Hnd as (_ & Hd & _).
      apply (Hd leaf); [apply list_elem_of_In; exact Hz | left]. }
    rewrite lookup_insert_ne by congruence. reflexivity.
Qed.

End ApplyFacts.

Section Rebalance.

Context {Value : Type}.
Implicit Types (st : gmap block_id_t (node Value)) (k : btree_key_t) (c : cache_t Value).

Lemma kids_leaf (ps : list (btree_key_t * Value)) : kids (Some (Leaf ps)) = [].
Proof. reflexivity. Qed.

(** Rebalancing the written leaf: a block that was present but unreachable
    stays unreachable; a non-empty leaf's pairs for [k] are found along the
    new path of [k]; and a leaf neither overfull nor empty is left as it
    is. *)
Lemma rebalance_spec (sizer : value_sizer_t Value) c2 (sb2 : superblock_t) k ns par
    (b1 : block_id_t) e c3 sb3 b3 :
  well_formed (cache_blocks c2) (get_root_block_id sb2) ->
  walk (cache_blocks c2) k ns (get_root_block_id sb2) b1 -> par = last ns ->
  cache_blocks c2 !! b1 = Some (Leaf e) ->
  rebalance_leaf sizer c2 (Some sb2) (opt_buf par) b1 k = Some (c3, sb3, b3) ->
  exists sb3', sb3 = Some sb3' /\
    (forall z, is_Some (cache_blocks c2 !! z) ->
       ~ reachable (cache_blocks c2) (get_root_block_id sb2) z ->
       ~ reachable (cache_blocks c3) (get_root_block_id sb3') z) /\
    (e <> [] -> exists ns' e', walk (cache_blocks c3) k ns' (get_root_block_id sb3') b3 /\
        cache_blocks c3 !! b3 = Some (Leaf e') /\ leaf_lookup e' k = leaf_lookup e k /\
        NoDup (ns' ++ [b3]) /\ (forall y, In y (ns' ++ [b3]) -> is_Some (cache_blocks c3 !! y))) /\
    (leaf_overfull sizer e = false -> e <> [] -> c3 = c2 /\ sb3' = sb2 /\ b3 = b1).
Proof.
  intros Hwf Hw Hpar Hb1 H. unfold rebalance_leaf in H. rewrite Hb1 in H.
  set (st2 := cache_blocks c2) in *. set (r2 := get_root_block_id sb2) in *.
  pose proof (walk_nodup _ k _ _ _ Hwf Hw) as Hnd.
  assert (Hpres : forall y, In y (ns ++ [b1]) -> is_Some (st2 !! y)).
  { intros y Hy. apply in_app_or in Hy as [Hy|[<-|[]]];
      [exact (walk_present _ k _ _ _ Hw y Hy) | rewrite Hb1; eauto]. }
  assert (Hsame : e <> [] -> exists ns' e', walk st2 k ns' r2 b1 /\
        st2 !! b1 = Some (Leaf e') /\ leaf_lookup e' k = leaf_lookup e k /\
        NoDup (ns' ++ [b1]) /\ (forall y, In y (ns' ++ [b1]) -> is_Some (st2 !! y))).
  { intros _. exists ns, e. auto. }
  destruct (leaf_overfull sizer e) eqn:Ho.
  - destruct (leaf_split e) as [[[sep lp] rp]|] eqn:Hs;
      [| injection H as <- <- <-; exists sb2; split; [reflexivity|];
         split; [auto | split; [exact Hsame | discriminate]]].
    cbn [alloc_block cache_blocks write_block] in H. fold st2 in H.
    destruct (clone_fresh (write_block c2 b1 (Leaf lp))) as [Hrb _].
    set (rb := clone_block_id (write_block c2 b1 (Leaf lp))) in *.
    cbn [cache_blocks write_block] in Hrb. fold st2 in Hrb.
    apply lookup_insert_None in Hrb as [Hrb2 Hb1rb].
    assert (Hprb : forall y, is_Some (st2 !! y) -> y <> rb) by (intros y [n Hn] ->; congruence).
    set (kb := if String.leb k sep then b1 else rb) in *.
    set (st2a := <[rb := Leaf rp]> (<[b1 := Leaf lp]> st2)).
    assert (Hkb : st2a !! kb = Some (Leaf (if String.leb k sep then lp else rp))).
    { unfold st2a, kb. destruct (String.leb k sep).
      - rewrite lookup_insert_ne by congruence. apply lookup_insert_eq.
      - apply lookup_insert_eq. }
    assert (Hlk : leaf_lookup (if String.leb k sep then lp else rp) k = leaf_lookup e k)
      by exact (leaf_split_lookup e k sep lp rp Hs).
    assert (Hmono : forall y, is_Some (st2 !! y) -> is_Some (st2a !! y))
      by (intros y Hy; unfold st2a; apply insert_present, insert_present, Hy).
    destruct par as [p|]; cbn [opt_buf] in H.
    + (* below a parent: the new right node is inserted in the parent *)
      symmetry in Hpar. apply last_Some in Hpar as [ns0 ->].
      apply walk_app in Hw as [Hw0 (seps & lst & Hpn & Hplk)].
      assert (Hpb1 : p <> b1) by congruence.
      assert (Hprb' : p <> rb) by (apply Hprb; rewrite Hpn; eauto).
      rewrite lookup_insert_ne, lookup_insert_ne, Hpn in H by congruence.
      fold st2a in H.
      destruct (seps_insert_split seps lst b1 sep rb) as [seps' lst'] eqn:Es.
      assert (Hnp : internal_insert_split b1 sep rb (Internal seps lst) =
                    Internal (Value := Value) seps' lst')
        by (simpl; rewrite Es; reflexivity).
      rewrite Hnp in H. injection H as <- <- <-.
      exists sb2. split; [reflexivity|]. cbn [cache_blocks write_block].
      assert (Hpr : reachable st2 r2 p).
      { apply (walk_reachable _ k ns0 _ p Hw0). apply in_or_app. right. left. reflexivity. }
      split; [|split; [|intros Hof; congruence]].
      * intros z Hz Hnr Hr3.
        assert (Hz' : In z [rb] \/ reachable st2 r2 z).
        { apply (reachable_extend st2 (<[p := Internal seps' lst']> st2a) r2 r2 [rb]);
            [left; reflexivity | | | exact Hr3].
          - intros a y Ha Hay. unfold child_of in *.
            destruct (decide (a = p)) as [->|Hap].
            + rewrite lookup_insert_eq in Hay. rewrite <- Hnp in Hay.
              apply insert_split_children in Hay as [Hay| ->]; [left|right; left; reflexivity].
              rewrite Hpn. exact Hay.
            + rewrite lookup_insert_ne in Hay by congruence.
              assert (Har : a <> rb) by (apply Hprb, (wf_present _ _ Hwf a Ha)).
              unfold st2a in Hay. rewrite lookup_insert_ne in Hay by congruence.
              destruct (decide (a = b1)) as [->|Hab].
              * rewrite lookup_insert_eq in Hay. destruct Hay.
              * rewrite lookup_insert_ne in Hay by congruence. left. exact Hay.
          - intros a y [Ha|[]] Hay. subst a. unfold child_of in Hay.
            rewrite lookup_insert_ne in Hay by congruence.
            unfold st2a in Hay. rewrite lookup_insert_eq in Hay. destruct Hay. }
        destruct Hz' as [[Hzr|[]]|Hz']; [exact (Hprb z Hz (eq_sym Hzr)) | exact (Hnr Hz')].
      * intros _. exists (ns0 ++ [p]), (if String.leb k sep then lp else rp).
        assert (Hkbp : kb <> p) by (unfold kb; destruct (String.leb k sep); congruence).
        split; [|split; [|split; [exact Hlk|split]]].
        -- apply walk_app. split.
           ++ apply (walk_frame st2); [exact Hw0|]. intros z Hz.
              assert (Hzp : z <> p /\ z <> b1).
              { rewrite <- app_assoc in Hnd. apply NoDup_app in Hnd as (_ & Hd & _).
                split; intros ->; apply (Hd _ (proj2 (list_elem_of_In _ _) Hz)); simpl;
                  [left | right; left]. }
              assert (z <> rb) by (apply Hprb, (walk_present _ k _ _ _ Hw0 z Hz)).
              unfold st2a. rewrite !lookup_insert_ne by intuition congruence. reflexivity.
           ++ exists seps', lst'. rewrite lookup_insert_eq. split; [reflexivity|].
              pose proof (insert_split_lookup seps lst b1 rb sep k) as Hisl.
              rewrite Es in Hisl. apply Hisl; [|exact Hplk].
              pose proof (wf_nodup _ _ Hwf p Hpr) as Hn. rewrite Hpn in Hn. exact Hn.
        -- rewrite lookup_insert_ne by congruence. exact Hkb.
        -- unfold kb. destruct (String.leb k sep); [exact Hnd|].
           apply NoDup_app. split; [|split; [|apply NoDup_singleton]].
           ++ apply NoDup_app in Hnd as [Hnd _]. exact Hnd.
           ++ intros y Hy Hy'. apply list_elem_of_singleton in Hy'. subst y.
              apply list_elem_of_In in Hy.
              exact (Hprb rb (Hpres rb (in_or_app _ _ _ (or_introl Hy))) eq_refl).
        -- intros y Hy. apply insert_present. apply in_app_or in Hy as [Hy|[Hy|[]]].
           ++ apply Hmono, Hpres, in_or_app. left. exact Hy.
           ++ rewrite <- Hy. fold st2 st2a. rewrite Hkb. eauto.
    + (* the leaf is the root: a new root is made over the two halves *)
      symmetry in Hpar. apply last_None in Hpar as ->. simpl in Hw.
      cbn [alloc_block option_map] in H. injection H as <- <- <-.
      fold st2a. cbn [cache_blocks write_block]. fold st2a.
      destruct (clone_fresh (write_block (write_block c2 b1 (Leaf lp)) rb (Leaf rp)))
        as [Hrt _].
      set (rt := clone_block_id (write_block (write_block c2 b1 (Leaf lp)) rb (Leaf rp))) in *.
      cbn [cache_blocks write_block] in Hrt. fold st2 st2a in Hrt.
      assert (Hrtp : forall y, is_Some (st2a !! y) -> y <> rt)
        by (intros y [n Hn] ->; congruence).
      assert (Hrtrb : rt <> rb).
      { apply not_eq_sym, Hrtp. unfold st2a. rewrite lookup_insert_eq. eauto. }
      assert (Hrtb1 : rt <> b1).
      { apply not_eq_sym, Hrtp, Hmono. rewrite Hb1. eauto. }
      exists (set_root_block_id sb2 rt). split; [reflexivity|]. rewrite get_root_set.
      split; [|split; [|intros Hof; congruence]].
      * intros z Hz Hnr Hr3.
        assert (Hz' : In z [rb; rt] \/ reachable st2 r2 z).
        { apply (reachable_extend st2 (<[rt := Internal [(sep, b1)] rb]> st2a) r2 rt [rb; rt]);
            [right; right; left; reflexivity | | | exact Hr3].
          - intros a y Ha Hay. unfold child_of in *.
            assert (Hart : a <> rt) by (apply Hrtp, Hmono, (wf_present _ _ Hwf a Ha)).
            assert (Har : a <> rb) by (apply Hprb, (wf_present _ _ Hwf a Ha)).
            rewrite lookup_insert_ne in Hay by congruence.
            unfold st2a in Hay. rewrite lookup_insert_ne in Hay by congruence.
            destruct (decide (a = b1)) as [->|Hab].
            + rewrite lookup_insert_eq in Hay. destruct Hay.
            + rewrite lookup_insert_ne in Hay by congruence. left. exact Hay.
          - intros a y Ha Hay. unfold child_of in Hay.
            destruct Ha as [<-|[<-|[]]].
            + rewrite lookup_insert_ne in Hay by congruence.
              unfold st2a in Hay. rewrite lookup_insert_eq in Hay. destruct Hay.
            + rewrite lookup_insert_eq in Hay. simpl in Hay.
              destruct Hay as [<-|[<-|[]]]; [left; left; reflexivity|].
              right. rewrite <- Hw. apply reach_root. }
        destruct Hz' as [[Hzr|[Hzr|[]]]|Hz'].
        -- exact (Hprb z Hz (eq_sym Hzr)).
        -- exact (Hrtp z (Hmono z Hz) (eq_sym Hzr)).
        -- exact (Hnr Hz').
      * intros _. exists [rt], (if String.leb k sep then lp else rp).
        assert (Hkbrt : kb <> rt) by (unfold kb; destruct (String.leb k sep); congruence).
        split; [|split; [|split; [exact Hlk|split]]].
        -- simpl. split; [reflexivity|]. exists [(sep, b1)], rb.
           rewrite lookup_insert_eq. split; [reflexivity|]. simpl.
           unfold kb. destruct (String.leb k sep); reflexivity.
        -- rewrite lookup_insert_ne by congruence. exact Hkb.
        -- simpl. apply NoDup_cons. split; [|apply NoDup_singleton].
           intros Hin. apply list_elem_of_singleton in Hin. congruence.
        -- intros y [Hy|[Hy|[]]]; rewrite <- Hy; [rewrite lookup_insert_eq; eauto|].
           rewrite lookup_insert_ne by congruence. fold st2 st2a. rewrite Hkb. eauto.
  - destruct e as [|x e'], par as [p|]; cbn [opt_buf] in H;
      try (injection H as <- <- <-; exists sb2; split; [reflexivity|];
           split; [auto | split; [exact Hsame | auto]]).
    destruct (st2 !! p) as [np|] eqn:Hp; [|discriminate].
    injection H as <- <- <-. exists sb2. split; [reflexivity|].
    split; [|split; intros; congruence].
    cbn [cache_blocks write_block]. intros z Hz Hnr Hr3.
    assert (Hz' : In z [] \/ reachable st2 r2 z).
    { apply (reachable_extend st2 (<[p := internal_remove_child b1 np]> st2) r2 r2 []);
        [left; reflexivity | | | exact Hr3].
      - intros a y Ha Hay. unfold child_of in *. left.
        destruct (decide (a = p)) as [->|Hap].
        + rewrite lookup_insert_eq in Hay. rewrite Hp. exact (remove_children _ _ _ Hay).
        + rewrite lookup_insert_ne in Hay by congruence. exact Hay.
      - intros a y []. }
    destruct Hz' as [[]|Hz']. exact (Hnr Hz').
Qed.

End Rebalance.

(* ================================================================== *)
(** * Properties *)

(** ** Concrete checks *)

Definition ex_blocks : gmap block_id_t (node nat) :=
  <[1%N := Internal [("m"%string, 2%N)] 3%N]>
  (<[2%N := Leaf [("a"%string, 10)]]> (<[3%N := Leaf [("z"%string, 30)]]> ∅)).
Definition ex_cache : cache_t nat := mk_cache ex_blocks {[2%N]}.
Definition ex_got : got_superblock_t :=
  mk_got_superblock (Some (Virtual (virtual_superblock_new 1%N))).
Definition ex_sizer : value_sizer_t nat := mk_value_sizer (fun _ => 1) 64.

(** The location of ["a"], whose leaf is still shared with a snapshot. *)
Definition ex_loc : keyvalue_location_t nat :=
  {| txn := Some ex_cache; kv_sb := Some (Virtual (virtual_superblock_new 1%N));
     last_buf := BufHeld 1%N; buf := BufHeld 2%N;
     there_originally_was_value := true; value := Some 10 |}.

Example ex_find_write :
  find_keyvalue_location_for_write ex_cache ex_got "a" keyvalue_location_default = Some ex_loc.
Proof. vm_compute. reflexivity. Qed.

Example ex_find_read_absent :
  option_map (fun l => (there_originally_was_value l, value l))
    (find_keyvalue_location_for_read ex_cache ex_got "q" keyvalue_location_default) =
  Some (false, None).
Proof. vm_compute. reflexivity. Qed.

(** With the root shared too, write resolution copies the root to block 4
    and makes it the superblock's root; change application then copies the
    leaf to block 5 and patches it into the new root. *)
Example ex_write_shared :
  option_map (fun l => (option_map get_root_block_id (kv_sb l), last_buf l, buf l,
                        option_map (fun c => cache_blocks c !! 4%N) (txn l)))
    (find_keyvalue_location_for_write (mk_cache ex_blocks {[1%N; 2%N]}) ex_got "b"
       keyvalue_location_default ≫= fun l =>
     apply_keyvalue_change ex_sizer (with_location_value l (Some 20)) "b") =
  Some (Some 4%N, BufHeld 4%N, BufHeld 5%N, Some (Some (Internal [("m"%string, 5%N)] 3%N))).
Proof. vm_compute. reflexivity. Qed.

(** With a block size of 3 the leaf overflows: it is split into blocks 5
    and 6, and the parent gets the new separator. *)
Example ex_write_split :
  option_map (fun l => (buf l, option_map (fun c => cache_blocks c !! 4%N) (txn l)))
    (find_keyvalue_location_for_write (mk_cache ex_blocks {[1%N; 2%N]}) ex_got "b"
       keyvalue_location_default ≫= fun l =>
     apply_keyvalue_change (mk_value_sizer (fun _ => 1) 3) (with_location_value l (Some 20)) "b") =
  Some (BufHeld 6%N, Some (Some (Internal [("a"%string, 5%N); ("m"%string, 6%N)] 3%N))).
Proof. vm_compute. reflexivity. Qed.

Lemma ex_blocks_wf : well_formed ex_blocks 1%N.
Proof.
  apply (well_formed_closed _ _ [1%N; 2%N; 3%N]).
  - left. reflexivity.
  - intros a z Ha Hz. unfold child_of in Hz.
    destruct Ha as [<-|[<-|[<-|[]]]]; vm_compute in Hz;
      repeat destruct Hz as [Hz|Hz]; subst; simpl; tauto.
  - intros a Ha. destruct Ha as [<-|[<-|[<-|[]]]]; vm_compute; eauto.
  - intros a b z Ha Hb Haz Hbz. unfold child_of in Haz, Hbz.
    destruct Ha as [<-|[<-|[<-|[]]]]; destruct Hb as [<-|[<-|[<-|[]]]];
      vm_compute in Haz, Hbz; try reflexivity; intuition congruence.
  - intros a Ha Hr. unfold child_of in Hr.
    destruct Ha as [<-|[<-|[<-|[]]]]; vm_compute in Hr; intuition discriminate.
  - intros a Ha. destruct Ha as [<-|[<-|[<-|[]]]]; vm_compute;
      repeat constructor; vm_compute; intros H; repeat (inversion H; subst; clear H);
      match goal with H : _ ∈ [] |- _ => inversion H end.
Qed.

(** ** The superblock *)

(** C6: on both variants [release] is a no-op when no lock is held, and
    releasing twice is releasing once. *)
Theorem release_idempotent (s : superblock_t) :
  (holds_lock s = false -> release s = s) /\ release (release s) = release s.
Proof.
  destruct s as [[l r d] | v]; simpl; split; try reflexivity.
  destruct l; simpl; [reflexivity | discriminate].
Qed.

(** C7: on a virtual superblock, [get_root_block_id] after
    [set_root_block_id b] is [b]. *)
Theorem virtual_get_set_root (v : virtual_superblock_t) (b : block_id_t) :
  virtual_get_root_block_id (virtual_set_root_block_id v b) = b /\
  get_root_block_id (set_root_block_id (Virtual v) b) = b.
Proof. split; reflexivity. Qed.

(** C8: after [swap_buf] on a virtual superblock the caller's slot holds an
    empty lock, whatever it held before. *)
Theorem virtual_swap_buf_empties (v : virtual_superblock_t) (swapee : buf_lock_t) :
  fst (virtual_swap_buf v swapee) = BufEmpty /\
  snd (swap_buf (Virtual v) swapee) = BufEmpty.
Proof. split; reflexivity. Qed.

(** C9: a virtual superblock built from any root id (or by default) and
    then given any sequence of new roots has no delete queue. *)
Theorem virtual_delete_queue_null (r : block_id_t) (roots : list block_id_t) :
  get_delete_queue_block
    (Virtual (fold_left virtual_set_root_block_id roots (virtual_superblock_new r)))
    = NULL_BLOCK_ID /\
  get_delete_queue_block
    (Virtual (fold_left virtual_set_root_block_id roots virtual_superblock_default))
    = NULL_BLOCK_ID.
Proof. split; reflexivity. Qed.

(** ** Key/value locations *)

(** C10: a default-constructed location has no original value and a null
    value copy, so it satisfies the flag/value invariant. *)
Theorem keyvalue_location_default_invariant (Value : Type) :
  there_originally_was_value (@keyvalue_location_default Value) = false /\
  value (@keyvalue_location_default Value) = None /\
  value_invariant (@keyvalue_location_default Value).
Proof. repeat split; simpl; try discriminate; reflexivity. Qed.

(** C2: a location produced by either resolution has
    [there_originally_was_value] true exactly when its value copy is
    present, and then the copy is the value stored for the key in the
    locked leaf. *)
Theorem find_keyvalue_location_value_invariant (Value : Type) (c : cache_t Value)
    (got : got_superblock_t) (k : btree_key_t) (out loc : keyvalue_location_t Value) :
  (find_keyvalue_location_for_read c got k out = Some loc \/
   find_keyvalue_location_for_write c got k out = Some loc) ->
  value_invariant loc /\
  (there_originally_was_value loc = true ->
   exists leaf pairs v, buf loc = BufHeld leaf /\
     cache_blocks c !! leaf = Some (Leaf pairs) /\
     leaf_lookup pairs k = Some v /\ value loc = Some v) /\
  (there_originally_was_value loc = false -> value loc = None).
Proof.
  unfold find_keyvalue_location_for_read, find_keyvalue_location_for_write.
  intros H.
  assert (exists m, find_keyvalue_location m c got k out = Some loc) as [m Hm]
    by (destruct H; eauto).
  clear H. unfold find_keyvalue_location in Hm.
  destruct (got_sb got) as [sb|]; [|discriminate].
  destruct (descend _ _ _ _ _ _) as [[[c1 sb1] [| | | par leaf]]|] eqn:Hd; try discriminate.
  destruct (cache_blocks c1 !! leaf) as [[pairs|]|] eqn:Hleaf; try discriminate.
  pose proof (descend_leaf _ _ _ _ _ _ _ _ _ _ _ Hd Hleaf) as Hleaf0.
  injection Hm as <-. simpl.
  destruct (leaf_lookup pairs k) as [v|] eqn:Hv; simpl.
  - repeat split; eauto; try discriminate.
    intros _. eauto 7.
  - repeat split; try discriminate; reflexivity.
Qed.

Lemma find_keyvalue_location_value_invariant_witness :
  find_keyvalue_location_for_write ex_cache ex_got "a" keyvalue_location_default = Some ex_loc /\
  value_invariant ex_loc.
Proof.
  split; [vm_compute; reflexivity|].
  apply (proj1 (find_keyvalue_location_value_invariant nat ex_cache ex_got "a"
                  keyvalue_location_default _ (or_intror (eq_refl _)))).
Defined.

(** ** The scoped mutation transaction *)

(** C1: whatever the caller's code does to the exposed value and however
    it leaves the scope (normally, by an early [return], or by an error
    unwinding from a nested call), the scope makes exactly one call of
    change application, with the final value, and the outcome propagates. *)
Theorem value_txn_applies_exactly_once (Value : Type) (sizer : value_sizer_t Value)
    (k : btree_key_t) (body : stmt Value) (w : world Value) :
  let '(o, v) := exec body (value (w_loc w)) in
  value_txn_scope sizer k body w =
    (o, apply_call sizer (mk_world (with_location_value (w_loc w) v) (w_applied w)) k) /\
  w_applied (snd (value_txn_scope sizer k body w)) = w_applied w ++ [v].
Proof.
  unfold value_txn_scope, value_txn_construct, value_txn_destroy. simpl.
  destruct (exec body (value (w_loc w))) as [o v]. simpl.
  assert (Hloc : with_location_value (with_location_value (w_loc w) None) v =
                 with_location_value (w_loc w) v) by reflexivity.
  rewrite Hloc. split; [reflexivity|].
  unfold apply_call. simpl.
  destruct (apply_keyvalue_change _ _ _) as [loc'|]; reflexivity.
Qed.

(** ** Lock coupling during the descent *)

(** C3: in every state of a descent (read or write mode) reached from its
    start, once the first tree-node lock is taken, one or two tree-node
    locks are held; and a step that releases a lock on a node keeps the
    lock on the node's child for the key, which was already held.  This
    holds of the descent on a fixed tree, and of the descent in the
    transaction, where write mode clones the shared internal nodes it
    locks. *)
Theorem descent_lock_coupling (Value : Type) (m : access_t)
    (st : gmap block_id_t (node Value)) (k : btree_key_t) (r : block_id_t) (s : dstate) :
  (rtc (dstep m st k) (DInit r) s ->
   (descent_started s = true -> 1 <= length (locks_held s) <= 2) /\
   (forall s', dstep m st k s s' ->
      forall x, x ∈ locks_held s -> x ∉ locks_held s' ->
        exists y, y ∈ locks_held s /\ y ∈ locks_held s' /\ routes_to st k x y)) /\
  (forall (c c' c'' : cache_t Value) (sb sb' sb'' : superblock_t) (s' : dstate),
     rtc (ldstep m k) (c, sb, DInit (get_root_block_id sb)) (c', sb', s) ->
     (descent_started s = true -> 1 <= length (locks_held s) <= 2) /\
     (ldstep m k (c', sb', s) (c'', sb'', s') ->
      forall x, x ∈ locks_held s -> x ∉ locks_held s' ->
        exists y, y ∈ locks_held s /\ y ∈ locks_held s' /\
                  routes_to (cache_blocks c'') k x y)).
Proof.
  assert (Hcount : descent_started s = true -> 1 <= length (locks_held s) <= 2).
  { intros Hst. destruct s as [r0 | r0 | [p|] c | [p|] c]; simpl in *;
      [discriminate | lia ..]. }
  split.
  - intros Hr. split; [exact Hcount|].
    pose proof (coupled_reachable m st k r s Hr) as Hc.
    intros s' Hd x Hx Hx'. destruct Hd as [s0 s1 Hs]. unfold step in Hs.
    destruct s0 as [r0|r0|par c|par c]; [| | |discriminate].
    + injection Hs as <-. simpl in Hx. set_solver.
    + injection Hs as <-. simpl in *. set_solver.
    + destruct (st !! c) as [[pairs|seps last]|] eqn:Hn; try discriminate.
      * injection Hs as <-.
        destruct par as [p|]; destruct m; simpl in *;
          try (exfalso; set_solver).
        assert (x = p) as -> by set_solver.
        exists c. split; [set_solver|]. split; [set_solver|exact Hc].
      * destruct par as [p|]; injection Hs as <-; simpl in *;
          [|exfalso; set_solver].
        assert (x = p) as -> by set_solver.
        exists c. split; [set_solver|]. split; [set_solver|exact Hc].
  - intros c c' c'' sb sb' sb'' s' Hr. split; [exact Hcount|].
    intros Hl. exact (lock_step_coupling m c' sb' k s c'' sb'' s'
                        (coupled_ldstep m k c sb c' sb' s Hr) Hl).
Qed.

Lemma descent_lock_coupling_witness :
  rtc (dstep rwi_read ex_blocks "a" ) (DInit 1%N) (DAt (Some 1%N) 2%N) /\
  1 <= length (locks_held (DAt (Some 1%N) 2%N)) <= 2.
Proof.
  assert (Hr : rtc (dstep rwi_read ex_blocks "a") (DInit 1%N) (DAt (Some 1%N) 2%N)).
  { eapply rtc_l; [constructor; reflexivity|].
    eapply rtc_l; [constructor; reflexivity|].
    eapply rtc_l; [constructor; vm_compute; reflexivity|].
    apply rtc_refl. }
  split; [exact Hr|].
  exact (proj1 (proj1 (descent_lock_coupling nat rwi_read ex_blocks "a" 1%N _) Hr) eq_refl).
Defined.

(** ** Change application *)

(** C4: in a well-formed tree, writing [v] for [k] through a write-mode
    resolution and change application (cloning, splitting or not), then
    resolving [k] for reading in the resulting transaction and superblock,
    finds [k] with the value [v]. *)
Theorem write_then_read_roundtrip (Value : Type) (sizer : value_sizer_t Value)
    (c : cache_t Value) (got : got_superblock_t) (k : btree_key_t) (v : Value)
    (r : block_id_t) (out out' loc loc' : keyvalue_location_t Value) :
  option_map get_root_block_id (got_sb got) = Some r ->
  well_formed (cache_blocks c) r ->
  find_keyvalue_location_for_write c got k out = Some loc ->
  apply_keyvalue_change sizer (with_location_value loc (Some v)) k = Some loc' ->
  exists c' rloc, txn loc' = Some c' /\
    find_keyvalue_location_for_read c' (mk_got_superblock (kv_sb loc')) k out' = Some rloc /\
    there_originally_was_value rloc = true /\ value rloc = Some v.
Proof.
  intros Hr Hwf Hf Ha.
  destruct (got_sb got) as [sb|] eqn:Hgot; [|discriminate]. injection Hr as <-.
  destruct (find_write_spec c got k out loc sb Hgot Hwf Hf)
    as (c1 & sb1 & par & leaf & pairs & ns & Htx & Hsb & Hlb & Hb & Hleaf & _ & Hwf1 & Hw &
        _ & Hpar & _).
  unfold apply_keyvalue_change in Ha. cbn [txn buf kv_sb last_buf with_location_value] in Ha.
  rewrite Htx, Hb, Hsb, Hlb, Hleaf in Ha.
  destruct (cow_leaf c1 (Some (release sb1)) (opt_buf par) leaf) as [[[c1' sb1'] b1]|] eqn:Hc;
    [|discriminate].
  set (e := leaf_insert pairs k v).
  assert (He : edit_leaf pairs (with_location_value loc (Some v)) k = e) by reflexivity.
  rewrite He in Ha.
  rewrite <- (get_root_release sb1) in Hwf1, Hw.
  destruct (cow_write_spec c1 (release sb1) k ns par leaf pairs e c1' sb1' b1 Hwf1 Hw Hpar Hleaf Hc)
    as (sb2 & -> & Hwf2 & Hw2 & _).
  destruct (rebalance_leaf sizer (write_block c1' b1 (Leaf e)) (Some sb2) (opt_buf par) b1 k)
    as [[[c3 sb3] b3]|] eqn:Hrb; [|discriminate].
  injection Ha as <-.
  assert (Hb1 : cache_blocks (write_block c1' b1 (Leaf e)) !! b1 = Some (Leaf e))
    by (apply lookup_insert_eq).
  destruct (rebalance_spec sizer (write_block c1' b1 (Leaf e)) sb2 k ns par b1 e c3 sb3 b3
              Hwf2 Hw2 Hpar Hb1 Hrb) as (sb3' & -> & _ & Hfound & _).
  destruct (Hfound (leaf_insert_nonempty pairs k v)) as (ns' & e' & Hw3 & Hl3 & Hlk & Hnd & Hpres).
  exists c3. eexists. split; [reflexivity|]. cbn [kv_sb].
  split; [exact (find_read_walk c3 sb3' k ns' b3 e' out' Hw3 Hl3 Hnd Hpres)|].
  cbn [there_originally_was_value value].
  rewrite Hlk. unfold e. rewrite leaf_lookup_insert. split; reflexivity.
Qed.


(** ** Instances of change application *)

Lemma write_then_read_roundtrip_witness :
  exists loc', apply_keyvalue_change ex_sizer (with_location_value ex_loc (Some 20)) "a" = Some loc' /\
  exists c' rloc, txn loc' = Some c' /\
    find_keyvalue_location_for_read c' (mk_got_superblock (kv_sb loc')) "a"
      keyvalue_location_default = Some rloc /\
    there_originally_was_value rloc = true /\ value rloc = Some 20.
Proof.
  destruct (apply_keyvalue_change ex_sizer (with_location_value ex_loc (Some 20)) "a")
    as [loc'|] eqn:Ha; [|vm_compute in Ha; discriminate].
  exists loc'. split; [reflexivity|].
  exact (write_then_read_roundtrip nat ex_sizer ex_cache ex_got "a" 20 1%N
           keyvalue_location_default keyvalue_location_default ex_loc loc'
           eq_refl ex_blocks_wf (ltac:(vm_compute; reflexivity)) Ha).
Defined.






(** ** Sequences of calls on a virtual superblock *)

(** A call of a mutating member function of [virtual_superblock_t]. *)
Inductive sb_call :=
| CallRelease
| CallSwapBuf (swapee : buf_lock_t)
| CallSetRoot (new_root_block : block_id_t).

(** Runs the calls in order; for each [swap_buf] it records the lock handed
    back in the caller's slot and the lock left in the temporary, which the
    temporary's destructor releases. *)
Fixpoint virtual_run_calls (v : virtual_superblock_t) (cs : list sb_call)
    : virtual_superblock_t * list (buf_lock_t * buf_lock_t) :=
  match cs with
  | [] => (v, [])
  | CallRelease :: rest => virtual_run_calls (virtual_release v) rest
  | CallSwapBuf l :: rest =>
      let '(v', outs) := virtual_run_calls v rest in
      (v', virtual_swap_buf v l :: outs)
  | CallSetRoot b :: rest => virtual_run_calls (virtual_set_root_block_id v b) rest
  end.

(** The argument of the last [set_root_block_id] call, or [r] if none. *)
Fixpoint last_set_root (r : block_id_t) (cs : list sb_call) : block_id_t :=
  match cs with
  | [] => r
  | CallSetRoot b :: rest => last_set_root b rest
  | _ :: rest => last_set_root r rest
  end.

Definition swap_buf_calls (cs : list sb_call) : list buf_lock_t :=
  omap (fun c => match c with CallSwapBuf l => Some l | _ => None end) cs.

(** X1: on a virtual superblock built with root [r], after any sequence of
    [release], [swap_buf] and [set_root_block_id] calls the root is the
    argument of the last [set_root_block_id] (or [r]), the delete queue is
    [NULL_BLOCK_ID], and every [swap_buf] gave the caller an empty lock and
    moved the caller's lock into the temporary that releases it. *)
Theorem virtual_call_sequence (r : block_id_t) (cs : list sb_call) :
  let '(v', outs) := virtual_run_calls (virtual_superblock_new r) cs in
  virtual_get_root_block_id v' = last_set_root r cs /\
  virtual_get_delete_queue_block v' = NULL_BLOCK_ID /\
  outs = map (fun l => (BufEmpty, l)) (swap_buf_calls cs).
Proof.
  revert r. induction cs as [|[|l|b] rest IH]; intros r; simpl.
  - repeat split.
  - exact (IH r).
  - specialize (IH r). destruct (virtual_run_calls _ rest) as [v' outs].
    destruct IH as (H1 & H2 & H3). repeat split; [exact H1 | rewrite H3; reflexivity].
  - exact (IH b).
Qed.
